(** * An in-memory to-do list server: the store and its operations

    A shallow embedding of the HTTP variant ([src/main.go]) and of the
    console variant of the to-do tracker, together with the properties of
    the task-list store: existence checks, 1-based index validation,
    append/toggle/delete on the ordered task sequences and the monotone
    growth of the set of list names.

    Go slices are modelled as headers (pointer, length, capacity) over
    backing arrays kept in an explicit heap, so that the in-place writes of
    [tasks[i].Status = ...] and [append(tasks[:i-1], tasks[i:]...)] and the
    absence of sharing between the lists of the map are part of what is
    proved and not of what is assumed. *)

From Stdlib Require Import Ascii.
From stdpp Require Import base option numbers list strings pretty gmap fin_maps.

(** ** The pieces of the Go standard library the handlers call *)

(** [strings.TrimPrefix(s, prefix)]: [s] without the leading [prefix], or
    [s] itself when it does not start with [prefix]. *)
Fixpoint strip_prefix (s prefix : string) : option string :=
  match prefix, s with
  | EmptyString, _ => Some s
  | String p prefix', String c s' =>
      if decide (c = p) then strip_prefix s' prefix' else None
  | String _ _, EmptyString => None
  end.

Definition TrimPrefix (s prefix : string) : string :=
  default s (strip_prefix s prefix).

(** [strings.Split(s, sep)] for a one-character separator: the substrings
    between the separators; a string without separator (the empty string
    too) gives one part. *)
Fixpoint Split (s : string) (sep : ascii) : list string :=
  match s with
  | EmptyString => [EmptyString]
  | String c s' =>
      if decide (c = sep) then EmptyString :: Split s' sep
      else match Split s' sep with
           | p :: ps => String c p :: ps
           | [] => [String c EmptyString]
           end
  end.

(** Whether the character [c] occurs in [s]. *)
Fixpoint contains (c : ascii) (s : string) : bool :=
  match s with
  | EmptyString => false
  | String x s' => if decide (x = c) then true else contains c s'
  end.

(** [strconv.Atoi]: an optional sign, then at least one decimal digit and
    nothing else; the value has to fit Go's 64-bit [int].  [None] stands
    for the error result. *)
Definition digit_value (c : ascii) : option Z :=
  let n := nat_of_ascii c in
  if decide (48 ≤ n ≤ 57)%nat then Some (Z.of_nat (n - 48)) else None.

Fixpoint digits_value (acc : Z) (s : string) : option Z :=
  match s with
  | EmptyString => Some acc
  | String c s' =>
      match digit_value c with
      | Some d => digits_value (10 * acc + d) s'
      | None => None
      end
  end.

Definition int_min : Z := - 2 ^ 63.
Definition int_max : Z := 2 ^ 63 - 1.

Definition Atoi (s : string) : option Z :=
  let '(negative, ds) :=
    match s with
    | String "-"%char s' => (true, s')
    | String "+"%char s' => (false, s')
    | _ => (false, s)
    end in
  match ds with
  | EmptyString => None
  | _ =>
      match digits_value 0 ds with
      | Some n =>
          let v := if negative : bool then (- n)%Z else n in
          if decide (int_min ≤ v ≤ int_max)%Z then Some v else None
      | None => None
      end
  end.

(** ** Go slices over an explicit heap of backing arrays *)

(** The zero value of a Go type: what a fresh variable and the unused
    capacity of a fresh array hold. *)
Class Zero (A : Type) := zero : A.

(** What the language leaves to the runtime: the capacity of the array that
    [append] allocates when the old one is too small, from the old capacity
    and the length that is needed.  The model never relies on the answer
    being large enough: the new array always has room for what is needed. *)
Class GoRuntime := growslice : nat → nat → nat.

(** A slice header.  [base] is the backing array ([None]: the nil slice),
    [off] the position in it of the slice's first element. *)
Record slice := Slice { base : option nat; off : nat; len : nat; cap : nat }.

Definition nil_slice : slice := Slice None 0 0 0.

Section slices.
Context {A : Type} `{!Zero A} `{!GoRuntime}.

(** Arrays are addressed by their position in the heap and never freed. *)
Definition backing (h : list (list A)) (s : slice) : list A :=
  match base s with
  | Some a => default [] (h !! a)
  | None => []
  end.

(** The elements [s[0]], ..., [s[len(s)-1]]. *)
Definition elems (h : list (list A)) (s : slice) : list A :=
  take (len s) (drop (off s) (backing h s)).

(** [[]T{}]: a slice of length zero over an array of its own. *)
Definition empty_literal (h : list (list A)) : list (list A) * slice :=
  (h ++ [[]], Slice (Some (length h)) 0 0 0).

(** [s[i]] as a value; [None] is the run-time panic of an index out of
    range. *)
Definition slice_get (h : list (list A)) (s : slice) (i : Z) : option A :=
  if decide (0 ≤ i < Z.of_nat (len s))%Z
  then backing h s !! (off s + Z.to_nat i)%nat
  else None.

(** [s[i] = v]: a write into the backing array. *)
Definition slice_set (h : list (list A)) (s : slice) (i : Z) (v : A)
  : option (list (list A)) :=
  if decide (0 ≤ i < Z.of_nat (len s))%Z
  then a ← base s;
       arr ← h !! a;
       Some (<[a := <[(off s + Z.to_nat i)%nat := v]> arr]> h)
  else None.

(** [s[lo:hi]]: the same array seen through another window; it panics
    unless [0 <= lo <= hi <= cap(s)]. *)
Definition reslice (s : slice) (lo hi : Z) : option slice :=
  if decide (0 ≤ lo ≤ hi ∧ hi ≤ Z.of_nat (cap s))%Z
  then Some (Slice (base s) (off s + Z.to_nat lo)
                   (Z.to_nat (hi - lo)) (cap s - Z.to_nat lo))
  else None.

(** The array [arr] with [xs] copied over its positions from [pos] on. *)
Definition write_at (pos : nat) (xs arr : list A) : list A :=
  take pos arr ++ xs ++ drop (pos + length xs) arr.

(** [append(s, xs...)]: within the capacity the new elements are written
    into the array of [s], after its last element; otherwise a new array
    receives the elements of [s] and then [xs]. *)
Definition append (h : list (list A)) (s : slice) (xs : list A)
  : list (list A) * slice :=
  let n := (len s + length xs)%nat in
  if decide (n ≤ cap s)%nat then
    match base s with
    | Some a =>
        (<[a := write_at (off s + len s) xs (default [] (h !! a))]> h,
         Slice (Some a) (off s) n (cap s))
    | None => (h, s)
    end
  else
    let arr := elems h s ++ xs ++ replicate (growslice (cap s) n - n) zero in
    (h ++ [arr], Slice (Some (length h)) 0 n (length arr)).

(** What the lists of a map read as: each name with its elements. *)
Definition snapshot (h : list (list A)) (m : gmap string slice)
  : gmap string (list A) :=
  elems h <$> m.

(** A stored slice points at an array of the heap and stays within it. *)
Definition slice_ok (h : list (list A)) (s : slice) : Prop :=
  ∃ a arr, base s = Some a ∧ h !! a = Some arr ∧
           (off s + cap s ≤ length arr)%nat ∧ (len s ≤ cap s)%nat.

(** The lists of a map are well formed and no two of them share an
    array. *)
Definition lists_ok (h : list (list A)) (m : gmap string slice) : Prop :=
  (∀ n s, m !! n = Some s → slice_ok h s) ∧
  (∀ n1 n2 s1 s2, n1 ≠ n2 → m !! n1 = Some s1 → m !! n2 = Some s2 →
                  base s1 ≠ base s2).

(** [h'] extends [h], keeps the length of every array and differs from
    [h] in the contents of the array of [a] at most. *)
Definition frames (a : option nat) (h h' : list (list A)) : Prop :=
  ∀ b arr, h !! b = Some arr →
    ∃ arr', h' !! b = Some arr' ∧ length arr' = length arr ∧
            (Some b ≠ a → arr' = arr).
End slices.

(** ** The HTTP server ([src/main.go]) *)

Record Task := mkTask { Description : string; Status : bool }.

#[global] Instance Task_zero : Zero Task := mkTask "" false.
#[global] Instance Task_eq_dec : EqDecision Task.
Proof. solve_decision. Defined.

(** The shared state: [taskLists], a map from list name to a slice of
    tasks, with the heap its slices point into.  The mutex [mu] is held by
    every handler from its first access of the map to its return, so a
    handler is one transition of the store; the lock itself is modelled
    with the concurrent executions below. *)
Record store := Store { heap : list (list Task); taskLists : gmap string slice }.

Definition empty_store : store := Store [] ∅.

(** Requests.  The body is taken as [encoding/json] sees it when it decodes
    into a [Task]: ill-formed for that type, or the fields that are
    present. *)
Inductive body :=
  | Malformed
  | TaskJSON (description : option string) (status : option bool).

Record request := Request { Method : string; Path : string; Body : body }.

Definition MethodGet : string := "GET".
Definition MethodPost : string := "POST".
Definition MethodPut : string := "PUT".
Definition MethodDelete : string := "DELETE".

Definition StatusOK : Z := 200.
Definition StatusBadRequest : Z := 400.
Definition StatusNotFound : Z := 404.
Definition StatusMethodNotAllowed : Z := 405.
Definition StatusConflict : Z := 409.

(** Responses: the status code and what was written.  A [map[string]string]
    is written as an object with its keys in sorted order. *)
Inductive json :=
  | JMessage (fields : list (string * string))
  | JTasks (tasks : option (list Task))
  | JLists (lists : gmap string (option (list Task))).

Inductive payload :=
  | Text (msg : string)
  | JSON (v : json).

Record response := Response { code : Z; content : payload }.

(** [http.Error(w, msg, code)]. *)
Definition http_Error (msg : string) (c : Z) : response := Response c (Text msg).

(** [writeJSON(w, data)]: the first write sends status 200. *)
Definition writeJSON (v : json) : response := Response StatusOK (JSON v).

(** How [encoding/json] writes a [[]Task]: a nil slice is [null]. *)
Definition encode_tasks (h : list (list Task)) (s : slice) : option (list Task) :=
  match base s with
  | Some _ => Some (elems h s)
  | None => None
  end.

(** [Decode(&t)]: the fields present in the body are assigned, the others
    keep the value [t] had. *)
Definition Decode (b : body) (t : Task) : option Task :=
  match b with
  | Malformed => None
  | TaskJSON d s => Some (mkTask (default (Description t) d) (default (Status t) s))
  end.

Section handlers.
Context `{!GoRuntime}.

(** A handler takes the store to the store it leaves and the response it
    wrote; [None] is a run-time panic. *)

(** [handleLists]: [GET /lists]. *)
Definition handleLists (st : store) (r : request) : option (store * response) :=
  if decide (Method r = MethodGet)
  then Some (st, writeJSON (JLists (encode_tasks (heap st) <$> taskLists st)))
  else Some (st, http_Error "Method not allowed" StatusMethodNotAllowed).

(** The cases of the [switch] of [handleListOperations], under the names
    the specification gives them. *)

(** [POST /lists/{listName}] (main.go, lines 66-74). *)
Definition CreateList (st : store) (listName : string) : option (store * response) :=
  match taskLists st !! listName with
  | Some _ => Some (st, http_Error "Task list already exists" StatusConflict)
  | None =>
      let '(h, s) := empty_literal (heap st) in
      Some (Store h (<[listName := s]> (taskLists st)),
            writeJSON (JMessage [ ("list", listName);
                                 ("message", "Task list created") ]))
  end.

(** [GET /lists/{listName}/tasks] (lines 77-85). *)
Definition GetTasks (st : store) (listName : string) : option (store * response) :=
  match taskLists st !! listName with
  | None => Some (st, http_Error "Task list not found" StatusNotFound)
  | Some tasks => Some (st, writeJSON (JTasks (encode_tasks (heap st) tasks)))
  end.

(** [POST /lists/{listName}/tasks] (lines 88-98).  The body is decoded
    into a zero [Task]; reading a name the map does not have gives the
    nil slice. *)
Definition AppendTask (st : store) (listName : string) (b : body)
  : option (store * response) :=
  match Decode b zero with
  | None => Some (st, http_Error "Invalid task data" StatusBadRequest)
  | Some t =>
      let '(h, s) := append (heap st) (default nil_slice (taskLists st !! listName)) [t] in
      Some (Store h (<[listName := s]> (taskLists st)),
            writeJSON (JMessage [ ("message", "Task added");
                                 ("task", Description t) ]))
  end.

(** [PUT /lists/{listName}/tasks/{index}] (lines 101-121). *)
Definition ToggleTask (st : store) (listName : string) (part : string)
  : option (store * response) :=
  match Atoi part with
  | None => Some (st, http_Error "Invalid task index" StatusBadRequest)
  | Some index =>
      if decide (index < 1)%Z
      then Some (st, http_Error "Invalid task index" StatusBadRequest)
      else
        match taskLists st !! listName with
        | None => Some (st, http_Error "Task list not found" StatusNotFound)
        | Some tasks =>
            if decide (index > Z.of_nat (len tasks))%Z
            then Some (st, http_Error "Task index out of range" StatusBadRequest)
            else
              t ← slice_get (heap st) tasks (index - 1);
              h ← slice_set (heap st) tasks (index - 1)
                    (mkTask (Description t) (negb (Status t)));
              Some (Store h (<[listName := tasks]> (taskLists st)),
                    writeJSON (JMessage [ ("message", "Task status toggled") ]))
        end
  end.

(** [DELETE /lists/{listName}/tasks/{index}] (lines 124-143). *)
Definition DeleteTask (st : store) (listName : string) (part : string)
  : option (store * response) :=
  match Atoi part with
  | None => Some (st, http_Error "Invalid task index" StatusBadRequest)
  | Some index =>
      if decide (index < 1)%Z
      then Some (st, http_Error "Invalid task index" StatusBadRequest)
      else
        match taskLists st !! listName with
        | None => Some (st, http_Error "Task list not found" StatusNotFound)
        | Some tasks =>
            if decide (index > Z.of_nat (len tasks))%Z
            then Some (st, http_Error "Task index out of range" StatusBadRequest)
            else
              front ← reslice tasks 0 (index - 1);
              back ← reslice tasks index (Z.of_nat (len tasks));
              let '(h, s) := append (heap st) front (elems (heap st) back) in
              Some (Store h (<[listName := s]> (taskLists st)),
                    writeJSON (JMessage [ ("message", "Task deleted") ]))
        end
  end.

(** The parts of the path after [/lists/]. *)
Definition parts (r : request) : list string :=
  Split (TrimPrefix (Path r) "/lists/") "/".

(** [handleListOperations]: the checks on the path, then the [switch]
    with its cases in the order of the source.  An index expression
    [parts[i]] is the lookup [ps !! i]; it is only reached where the
    length of [parts] was tested before. *)
Definition handleListOperations (st : store) (r : request)
  : option (store * response) :=
  let ps := parts r in
  if decide (length ps < 1 ∨ ps !! 0%nat = Some "")
  then Some (st, http_Error "List name required" StatusBadRequest)
  else
    listName ← ps !! 0%nat;
    if decide (length ps = 1 ∧ Method r = MethodPost)
    then CreateList st listName
    else if decide (length ps = 2 ∧ ps !! 1%nat = Some "tasks" ∧ Method r = MethodGet)
    then GetTasks st listName
    else if decide (length ps = 2 ∧ ps !! 1%nat = Some "tasks" ∧ Method r = MethodPost)
    then AppendTask st listName (Body r)
    else if decide (length ps = 3 ∧ ps !! 1%nat = Some "tasks" ∧ Method r = MethodPut)
    then part ← ps !! 2%nat; ToggleTask st listName part
    else if decide (length ps = 3 ∧ ps !! 1%nat = Some "tasks" ∧ Method r = MethodDelete)
    then part ← ps !! 2%nat; DeleteTask st listName part
    else Some (st, http_Error "Not found" StatusNotFound).

(** The server runs one of its two handlers for each request. *)
Inductive call :=
  | Lists (r : request)
  | ListOperations (r : request).

Definition handle (st : store) (c : call) : option (store * response) :=
  match c with
  | Lists r => handleLists st r
  | ListOperations r => handleListOperations st r
  end.

(** A sequence of calls served one after the other: the store at the end
    and the responses in order. *)
Fixpoint serve (st : store) (cs : list call) : option (store * list response) :=
  match cs with
  | [] => Some (st, [])
  | c :: cs' =>
      '(st1, resp) ← handle st c;
      '(st2, resps) ← serve st1 cs';
      Some (st2, resp :: resps)
  end.

(** What a client can read of the store: every list with its tasks. *)
Definition view (st : store) : gmap string (list Task) :=
  snapshot (heap st) (taskLists st).

(** The invariant of the store: the lists are well formed and share no
    array, and no list has the empty name (which no path can address). *)
Definition store_inv (st : store) : Prop :=
  lists_ok (heap st) (taskLists st) ∧ taskLists st !! "" = None.
End handlers.

(** ** The console variant

    The same store with plain strings for tasks, driven by lines read from
    standard input.  The state carries the unread lines and what was
    printed so far. *)

Module Console.
#[global] Instance string_zero : Zero string := "".

Record state := State {
  heap : list (list string);
  taskLists : gmap string slice;
  stdin : list string;
  stdout : list string
}.

Definition newline : string := String (ascii_of_nat 10) "".

(** [fmt.Print(s)] and [fmt.Println(s)]. *)
Definition Print (s : string) (st : state) : state :=
  State (heap st) (taskLists st) (stdin st) (stdout st ++ [s]).

Definition Println (s : string) (st : state) : state :=
  Print (s +:+ newline) st.

(** [scanner.Scan(); scanner.Text()]: the next line, the empty string
    once the input is exhausted. *)
Definition Scan (st : state) : string * state :=
  match stdin st with
  | [] => ("", st)
  | line :: rest => (line, State (heap st) (taskLists st) rest (stdout st))
  end.

(** [for ... := range taskLists].  Go visits every entry of the map once
    and leaves the order open; the order can change from one loop to the
    next.  [range_order st] is the order taken by the loop that starts in
    state [st], and nothing is assumed of it but that it goes through the
    entries of the map. *)
Class MapRange := {
  range_order : state → list (string * slice);
  range_order_visits st : range_order st ≡ₚ map_to_list (taskLists st)
}.

Section functions.
Context `{!GoRuntime} `{!MapRange}.

(** [createTaskList]. *)
Definition createTaskList (st : state) : state :=
  let st := Print "Enter name of new task list: " st in
  let '(listName, st) := Scan st in
  match taskLists st !! listName with
  | Some _ => Println "Task list already exists." st
  | None =>
      let '(h, s) := empty_literal (heap st) in
      Println ("Task list created: " +:+ listName)
        (State h (<[listName := s]> (taskLists st)) (stdin st) (stdout st))
  end.

(** [addTasks].  The names are printed in the order that the [range]
    over the map takes. *)
Definition addTasks (st : state) : state :=
  if decide (size (taskLists st) = 0)
  then Println "No task lists available. Create one first!" st
  else
    let st := Println "Available task lists:" st in
    let st := foldl (λ st name, Println ("- " +:+ name) st) st
                (fst <$> range_order st) in
    let st := Print "Enter task list to add task to: " st in
    let '(listName, st) := Scan st in
    match taskLists st !! listName with
    | None => Println "Task list does not exist." st
    | Some tasks =>
        let st := Print "Enter task: " st in
        let '(task, st) := Scan st in
        let '(h, s) := append (heap st) tasks [task] in
        Println ("Task added to " +:+ listName)
          (State h (<[listName := s]> (taskLists st)) (stdin st) (stdout st))
    end.

Definition view (st : state) : gmap string (list string) :=
  snapshot (heap st) (taskLists st).

Definition state_inv (st : state) : Prop :=
  lists_ok (heap st) (taskLists st).

(** [printTasks].  The lists come in the order that the [range] over the
    map takes; [%d] is the decimal numeral. *)
Definition printTasks (st : state) : state :=
  if decide (size (taskLists st) = 0)
  then Println "No task lists found." st
  else
    let st := Println (newline +:+ "All Task Lists:") st in
    foldl (λ st '(name, tasks),
             let st := Println ("List: " +:+ name) st in
             if decide (len tasks = 0)
             then Println "  (No tasks)" st
             else foldl (λ st '(i, task),
                           Print ("  " +:+ pretty (i + 1) +:+ ". " +:+ task +:+ newline) st)
                        st (imap pair (elems (heap st) tasks)))
          st (range_order st).

(** The menu that [main] prints at the start of every turn of its loop. *)
Definition menu (st : state) : state :=
  let st := Println (newline +:+ "Choose an option:") st in
  let st := Println "1. Create a new task list" st in
  let st := Println "2. Add task to a list" st in
  let st := Println "3. View task lists" st in
  let st := Println "4. Exit" st in
  Print "Enter choice: " st.

(** One turn of the loop of [main]: the state it leaves, and whether
    [main] returns. *)
Definition turn (st : state) : state * bool :=
  let st := menu st in
  let '(choice, st) := Scan st in
  if decide (choice = "1") then (createTaskList st, false)
  else if decide (choice = "2") then (addTasks st, false)
  else if decide (choice = "3") then (printTasks st, false)
  else if decide (choice = "4") then (Println "Exited" st, true)
  else (Println "Invalid choice, try again." st, false).

(** The loop [for { ... }] of [main], run for at most [fuel] turns; [None]
    when it has not returned by then. *)
Fixpoint loop (fuel : nat) (st : state) : option state :=
  match fuel with
  | 0 => None
  | S fuel' =>
      let '(st', returned) := turn st in
      if returned then Some st' else loop fuel' st'
  end.

(** The state when the program starts: the empty map, and [input] to
    read. *)
Definition start (input : list string) : state := State [] ∅ input [].

(** [main]. *)
Definition main (fuel : nat) (input : list string) : option state :=
  loop fuel (Println "Welcome to Golang To-Do List!" (start input)).

(** Only the output differs between [st] and [st']. *)
Definition printed (st st' : state) : Prop :=
  heap st' = heap st ∧ taskLists st' = taskLists st ∧ stdin st' = stdin st.

(** Every list of [st] is in [st'], with its tasks and maybe more after
    them. *)
Definition grows (st st' : state) : Prop :=
  ∀ n l, view st !! n = Some l → ∃ l', view st' !! n = Some (l ++ l').

(** What [printTasks] writes for one list: its name, then its tasks
    numbered from 1, or a note that there are none. *)
Definition listing (name : string) (l : list string) : list string :=
  ("List: " +:+ name +:+ newline) ::
  match l with
  | [] => ["  (No tasks)" +:+ newline]
  | _ => imap (λ i task, "  " +:+ pretty (i + 1) +:+ ". " +:+ task +:+ newline) l
  end.
End functions.
End Console.

(** ** Concurrent add-task requests

    The server runs every request in a goroutine of its own.  A goroutine
    that serves [POST /lists/{listName}/tasks] goes through the statements
    of its case (main.go, lines 89-98) one at a time, and the goroutines
    interleave in any order; [mu.Lock()] can only be taken while the mutex
    is free. *)

Inductive pc :=
  | AtDecode (listName : string) (b : body)          (* line 91 *)
  | AtLock (listName : string) (t : Task)            (* line 95 *)
  | AtAppend (listName : string) (t : Task)          (* line 97, right-hand side *)
  | AtAssign (listName : string) (t : Task) (s : slice) (* line 97, map assignment *)
  | AtWrite (listName : string) (t : Task)           (* line 98 *)
  | AtUnlock (resp : response)                       (* the deferred mu.Unlock() *)
  | Done (resp : response).

Record config := Config { shared : store; mu : bool; goroutines : list pc }.

Section concurrent.
Context `{!GoRuntime}.

(** One statement of a goroutine; [None] when it cannot run: blocked on
    the mutex, or returned.  ([Unlock] of a mutex that is not locked stops
    the program; no goroutine gets there, see [conc_inv].) *)
Definition goroutine_step (st : store) (locked : bool) (p : pc)
  : option (store * bool * pc) :=
  match p with
  | AtDecode listName b =>
      match Decode b zero with
      | None => Some (st, locked, Done (http_Error "Invalid task data" StatusBadRequest))
      | Some t => Some (st, locked, AtLock listName t)
      end
  | AtLock listName t =>
      if locked then None else Some (st, true, AtAppend listName t)
  | AtAppend listName t =>
      let '(h, s) := append (heap st) (default nil_slice (taskLists st !! listName)) [t] in
      Some (Store h (taskLists st), locked, AtAssign listName t s)
  | AtAssign listName t s =>
      Some (Store (heap st) (<[listName := s]> (taskLists st)), locked, AtWrite listName t)
  | AtWrite listName t =>
      Some (st, locked,
            AtUnlock (writeJSON (JMessage [ ("message", "Task added");
                                            ("task", Description t) ])))
  | AtUnlock resp =>
      if locked then Some (st, false, Done resp) else None
  | Done _ => None
  end.

(** The scheduler lets goroutine [i] run its next statement. *)
Definition schedule (cfg : config) (i : nat) : option config :=
  p ← goroutines cfg !! i;
  '(st, locked, p') ← goroutine_step (shared cfg) (mu cfg) p;
  Some (Config st locked (<[i := p']> (goroutines cfg))).

Fixpoint run (cfg : config) (sched : list nat) : option config :=
  match sched with
  | [] => Some cfg
  | i :: sched' => cfg' ← schedule cfg i; run cfg' sched'
  end.

Definition is_done (p : pc) : bool :=
  match p with Done _ => true | _ => false end.

(** Between [mu.Lock()] and [mu.Unlock()]. *)
Definition in_critical_section (p : pc) : bool :=
  match p with
  | AtAppend _ _ | AtAssign _ _ _ | AtWrite _ _ | AtUnlock _ => true
  | _ => false
  end.

Definition finished (cfg : config) : Prop :=
  Forall (λ p, is_done p = true) (goroutines cfg).

(** The task a goroutine has still to put into the list. *)
Definition pending (p : pc) : list Task :=
  match p with
  | AtDecode _ b => match Decode b zero with Some t => [t] | None => [] end
  | AtLock _ t | AtAppend _ t | AtAssign _ t _ => [t]
  | AtWrite _ _ | AtUnlock _ | Done _ => []
  end.

(** The list a goroutine works on, while it has one. *)
Definition serves (n : string) (p : pc) : Prop :=
  match p with
  | AtDecode m _ | AtLock m _ | AtAppend m _ | AtAssign m _ _ | AtWrite m _ => m = n
  | AtUnlock _ | Done _ => True
  end.

(** The slice a goroutine holds between [append] and the assignment to
    the map: the list with the new task at its end, in an array that no
    other list uses. *)
Definition inflight_ok (n : string) (st : store) (p : pc) : Prop :=
  match p with
  | AtAssign _ t s =>
      slice_ok (heap st) s ∧
      elems (heap st) s = default [] (view st !! n) ++ [t] ∧
      ∀ n2 s2, n2 ≠ n → taskLists st !! n2 = Some s2 → base s2 ≠ base s
  | _ => True
  end.

(** The statements a goroutine has still to run, at most. *)
Definition steps_left (p : pc) : nat :=
  match p with
  | AtDecode _ _ => 6
  | AtLock _ _ => 5
  | AtAppend _ _ => 4
  | AtAssign _ _ _ => 3
  | AtWrite _ _ => 2
  | AtUnlock _ => 1
  | Done _ => 0
  end.

(** No two goroutines are in their critical sections. *)
Definition exclusive (gs : list pc) : Prop :=
  ∀ i j p q, gs !! i = Some p → gs !! j = Some q →
             in_critical_section p = true → in_critical_section q = true →
             i = j.

(** Some goroutine is in its critical section. *)
Definition occupied (gs : list pc) : Prop :=
  ∃ i p, gs !! i = Some p ∧ in_critical_section p = true.

(** What holds of every configuration that the goroutines serving list
    [n], which held [l0] at the start, can reach when the tasks [ts] were
    to be added: the store is well formed, the mutex is held exactly
    while one goroutine is in its critical section, and no two are, and
    the list is [l0] followed by the tasks added so far, which with the
    pending ones make up [ts]. *)
Definition conc_inv (n : string) (l0 ts : list Task) (cfg : config) : Prop :=
  store_inv (shared cfg) ∧
  Forall (serves n) (goroutines cfg) ∧
  Forall (inflight_ok n (shared cfg)) (goroutines cfg) ∧
  exclusive (goroutines cfg) ∧
  (mu cfg = true ↔ occupied (goroutines cfg)) ∧
  ∃ added, default [] (view (shared cfg) !! n) = l0 ++ added ∧
           added ++ concat (pending <$> goroutines cfg) ≡ₚ ts.

(** [n] requests arrive for one list while nobody holds the mutex. *)
Definition arrivals (st : store) (listName : string) (bodies : list body) : config :=
  Config st false (AtDecode listName <$> bodies).
End concurrent.

(** ** A runtime and stores to run the handlers on *)

(** A growth policy: the capacity doubles. *)
Definition doubling : GoRuntime := λ c n, Nat.max n (2 * c).

(** The store after the calls [cs], served from the start of the server. *)
Definition after (cs : list call) : store :=
  from_option fst empty_store (@serve doubling empty_store cs).

Definition post (path : string) (b : body) : call :=
  ListOperations (Request MethodPost path b).

Definition buy_milk : Task := mkTask "buy milk" false.
Definition call_bob : Task := mkTask "call bob" false.

(** The list "work" with two tasks. *)
Definition work_calls : list call :=
  [ post "/lists/work" Malformed;
    post "/lists/work/tasks" (TaskJSON (Some "buy milk") (Some false));
    post "/lists/work/tasks" (TaskJSON (Some "call bob") None) ].

(** Three requests for "work" and one way for their goroutines to
    interleave: the second one takes the mutex first. *)
Definition three_bodies : list body :=
  [ TaskJSON (Some "a") None; TaskJSON (Some "b") (Some true); TaskJSON (Some "c") None ].

Definition three_tasks : list Task :=
  [ mkTask "a" false; mkTask "b" true; mkTask "c" false ].

Definition interleaving : list nat :=
  [ 1; 1; 0; 1; 2; 1; 1; 1; 2; 2; 2; 2; 2; 0; 0; 0; 0; 0 ].

Definition after_interleaving : config :=
  default (arrivals (after work_calls) "work" three_bodies)
          (@run doubling (arrivals (after work_calls) "work" three_bodies) interleaving).

(** ** Further notions used in the properties *)

(** The names of the lists are not empty and hold no slash. *)
Definition names_ok (st : store) : Prop :=
  ∀ n, is_Some (taskLists st !! n) → n ≠ "" ∧ contains "/" n = false.

(** A task with its status flipped: what line 119 stores. *)
Definition toggled (t : Task) : Task := mkTask (Description t) (negb (Status t)).

(** The status codes the handlers write. *)
Definition status_codes : list Z :=
  [ StatusOK; StatusBadRequest; StatusNotFound; StatusMethodNotAllowed; StatusConflict ].

(** A request without a body that matters. *)
Definition request_to (method path : string) : request :=
  Request method path Malformed.

(** The list "home" beside "work". *)
Definition home_calls : list call :=
  work_calls ++
  [ post "/lists/home" Malformed;
    post "/lists/home/tasks" (TaskJSON (Some "water plants") None) ].

Section more_concurrent.
Context `{!GoRuntime}.



(** The add-task requests with the bodies [bodies] for list [n], served one
    after the other. *)
Fixpoint append_all (st : store) (n : string) (bodies : list body) : option store :=
  match bodies with
  | [] => Some st
  | b :: bodies' => '(st', _) ← AppendTask st n b; append_all st' n bodies'
  end.
End more_concurrent.

(** Three requests for "work", the second one with a body that does not
    decode, and one way for their goroutines to interleave: the third one
    takes the mutex first. *)
Definition mixed_bodies : list body :=
  [ TaskJSON (Some "a") None; Malformed; TaskJSON (Some "c") (Some true) ].

Definition mixed_interleaving : list nat :=
  [ 2; 2; 0; 2; 1; 2; 2; 2; 0; 0; 0; 0; 0 ].

Definition after_mixed : config :=
  default (arrivals (after work_calls) "work" mixed_bodies)
          (@run doubling (arrivals (after work_calls) "work" mixed_bodies)
                mixed_interleaving).

(** Two orders that a [range] over the map can take: the one of
    [map_to_list], and that one backwards. *)
Definition forwards : Console.MapRange :=
  {| Console.range_order st := map_to_list (Console.taskLists st);
     Console.range_order_visits st := reflexivity _ |}.

Definition backwards : Console.MapRange :=
  {| Console.range_order st := reverse (map_to_list (Console.taskLists st));
     Console.range_order_visits st := reverse_Permutation _ |}.

(** The console program after "work" was created, with two more lines to
    read. *)
Definition fresh_work : Console.state :=
  Console.createTaskList (Console.start [ "work"; "work"; "buy milk" ]).

(** A session at the console: two lists are created, a task is added, the
    lists are shown, and the user leaves. *)
Definition session : list string :=
  [ "1"; "work"; "1"; "home"; "2"; "work"; "buy milk"; "3"; "4" ].

Definition welcomed (input : list string) : Console.state :=
  Console.Println "Welcome to Golang To-Do List!" (Console.start input).

Definition after_session : Console.state :=
  default (welcomed session) (@Console.loop doubling backwards 6 (welcomed session)).
(** * Properties *)

(** ** The library functions and the scenario of the specification *)

Example TrimPrefix_lists : TrimPrefix "/lists/work/tasks/1" "/lists/" = "work/tasks/1".
Proof. reflexivity. Qed.
Example Split_path : Split "work/tasks/1" "/"%char = ["work"; "tasks"; "1"].
Proof. reflexivity. Qed.
Example Split_empty : Split "" "/"%char = [""].
Proof. reflexivity. Qed.
Example Atoi_ex : (Atoi "12", Atoi "-3", Atoi "+07", Atoi "", Atoi "-", Atoi "1x",
                   Atoi "9223372036854775807", Atoi "9223372036854775808")
                  = (Some 12%Z, Some (-3)%Z, Some 7%Z, None, None, None,
                     Some 9223372036854775807%Z, None).
Proof. vm_compute. reflexivity. Qed.

(** The path [/lists/{name}/tasks/{index}] is split into the name, "tasks"
    and the index, for every name and index without a slash. *)
Lemma strip_prefix_append p s : strip_prefix (p +:+ s) p = Some s.
Proof.
  induction p as [|c p IH]; simpl; [by destruct s|].
  by rewrite decide_True by done.
Qed.

Lemma TrimPrefix_append p s : TrimPrefix (p +:+ s) p = s.
Proof. unfold TrimPrefix. by rewrite strip_prefix_append. Qed.

Lemma Split_without s sep : contains sep s = false → Split s sep = [s].
Proof.
  induction s as [|c s IH]; simpl; [done|].
  case_decide; [done|]. intros Hs. by rewrite IH.
Qed.

Lemma Split_append s1 s2 sep :
  contains sep s1 = false →
  Split (s1 +:+ String sep s2) sep = s1 :: Split s2 sep.
Proof.
  induction s1 as [|c s1 IH]; simpl.
  - intros _. by rewrite decide_True by done.
  - case_decide; [done|]. intros Hs. by rewrite IH.
Qed.

Lemma parts_create m n b :
  contains "/" n = false → parts (Request m ("/lists/" +:+ n) b) = [n].
Proof.
  intros Hn. unfold parts. cbn [Path]. rewrite TrimPrefix_append.
  by apply Split_without.
Qed.

Lemma parts_tasks m n b :
  contains "/" n = false →
  parts (Request m ("/lists/" +:+ n +:+ "/tasks") b) = [n; "tasks"].
Proof.
  intros Hn. unfold parts. cbn [Path]. rewrite TrimPrefix_append.
  change ("/tasks") with (String "/" "tasks").
  by rewrite (Split_append n "tasks" "/" Hn).
Qed.

Lemma parts_task_index m n part b :
  contains "/" n = false → contains "/" part = false →
  parts (Request m ("/lists/" +:+ n +:+ "/tasks/" +:+ part) b) = [n; "tasks"; part].
Proof.
  intros Hn Hp. unfold parts. cbn [Path]. rewrite TrimPrefix_append.
  change ("/tasks/" +:+ part) with (String "/" ("tasks" +:+ String "/" part)).
  rewrite (Split_append n _ "/" Hn).
  rewrite (Split_append "tasks" part "/" eq_refl).
  by rewrite Split_without.
Qed.

(** The scenario of the specification: create "work", add "buy milk" and
    "call bob", toggle index 1, read the tasks. *)
Example scenario_toggle_first :
  snd <$> @serve doubling (after work_calls)
    [ ListOperations (Request MethodPut "/lists/work/tasks/1" Malformed);
      ListOperations (Request MethodGet "/lists/work/tasks" Malformed) ]
  = Some [ writeJSON (JMessage [ ("message", "Task status toggled") ]);
           writeJSON (JTasks (Some [ mkTask "buy milk" true; mkTask "call bob" false ])) ].
Proof. vm_compute. reflexivity. Qed.

(** A delete rewrites the array in place: the slice is one shorter, the
    capacity stays, and the last cell keeps a stale copy. *)
Example delete_in_place :
  (λ st, (heap st, taskLists st !! "work")) <$>
    (fst <$> @handleListOperations doubling (after work_calls)
               (Request MethodDelete "/lists/work/tasks/1" Malformed))
  = Some ([ []; [buy_milk]; [call_bob; call_bob] ], Some (Slice (Some 2) 0 1 2)).
Proof. vm_compute. reflexivity. Qed.

(** ** Slices and their backing arrays *)

Section slice_facts.
Context {A : Type} `{!Zero A} `{!GoRuntime}.
Implicit Types (h : list (list A)) (s : slice) (xs arr : list A).

Lemma frames_refl a h : frames a h h.
Proof. intros b arr Hb. eauto. Qed.

Lemma frames_alloc a h arr : frames a h (h ++ [arr]).
Proof.
  intros b arr0 Hb. exists arr0. split_and!; [|done..].
  by apply lookup_app_l_Some.
Qed.

Lemma frames_write h a arr arr' :
  h !! a = Some arr → length arr' = length arr →
  frames (Some a) h (<[a := arr']> h).
Proof.
  intros Ha Hlen b arr0 Hb. destruct (decide (b = a)) as [->|Hne].
  - exists arr'. rewrite list_lookup_insert_eq; [|by eapply lookup_lt_Some].
    split_and!; [done|congruence|congruence].
  - exists arr0. by rewrite list_lookup_insert_ne.
Qed.

Lemma slice_ok_frames a h h' s : slice_ok h s → frames a h h' → slice_ok h' s.
Proof.
  intros (b & arr & Hb & Harr & Hcap & Hlen) Hfr.
  destruct (Hfr _ _ Harr) as (arr' & Harr' & Hl & _).
  exists b, arr'. split_and!; [done|done|lia|done].
Qed.

Lemma elems_frames a h h' s :
  slice_ok h s → base s ≠ a → frames a h h' → elems h' s = elems h s.
Proof.
  intros (b & arr & Hb & Harr & _) Hne Hfr.
  destruct (Hfr _ _ Harr) as (arr' & Harr' & _ & Heq).
  unfold elems, backing. rewrite Hb, Harr, Harr'. simpl.
  rewrite Heq; [done|congruence].
Qed.

Lemma elems_length h s : slice_ok h s → length (elems h s) = len s.
Proof.
  intros (b & arr & Hb & Harr & Hcap & Hlen).
  unfold elems, backing. rewrite Hb, Harr. simpl.
  rewrite length_take, length_drop. lia.
Qed.

Lemma slice_ok_base_lt h s a : slice_ok h s → base s = Some a → a < length h.
Proof.
  intros (b & arr & Hb & Harr & _) Ha. simplify_eq. by eapply lookup_lt_Some.
Qed.

(** *** [[]T{}] *)
Lemma empty_literal_spec h :
  let '(h', s) := empty_literal h in
  frames None h h' ∧ slice_ok h' s ∧ elems h' s = [] ∧ base s = Some (length h).
Proof.
  simpl. split_and!; [apply frames_alloc| |done|done].
  exists (length h), []. simpl. split_and!; [done| |done|done].
  by rewrite lookup_app_r, Nat.sub_diag.
Qed.

(** *** Reading and writing an element *)
Lemma slice_get_elems h s (i : Z) :
  slice_ok h s → (0 ≤ i < Z.of_nat (len s))%Z →
  slice_get h s i = elems h s !! Z.to_nat i.
Proof.
  intros (b & arr & Hb & Harr & Hcap & Hlen) Hi.
  unfold slice_get, elems, backing. rewrite decide_True by done.
  rewrite Hb, Harr. simpl.
  rewrite lookup_take_lt by lia. by rewrite lookup_drop.
Qed.

Lemma slice_set_spec h s (i : Z) (v : A) :
  slice_ok h s → (0 ≤ i < Z.of_nat (len s))%Z →
  ∃ h', slice_set h s i v = Some h' ∧ frames (base s) h h' ∧
        elems h' s = <[Z.to_nat i := v]> (elems h s).
Proof.
  intros (b & arr & Hb & Harr & Hcap & Hlen) Hi.
  unfold slice_set. rewrite decide_True by done. rewrite Hb. simpl. rewrite Harr. simpl.
  eexists. split; [done|]. split.
  - eapply frames_write; [done|]. by rewrite length_insert.
  - unfold elems, backing. rewrite Hb, Harr. simpl.
    rewrite list_lookup_insert_eq by (by eapply lookup_lt_Some). simpl.
    rewrite drop_insert_ge by lia.
    rewrite take_insert_lt by lia.
    f_equal. lia.
Qed.

(** *** [s[lo:hi]] *)
Lemma reslice_spec h s (lo hi : Z) :
  slice_ok h s → (0 ≤ lo ≤ hi)%Z → (hi ≤ Z.of_nat (len s))%Z →
  ∃ s', reslice s lo hi = Some s' ∧ slice_ok h s' ∧ base s' = base s ∧
        len s' = Z.to_nat (hi - lo) ∧ cap s' = (cap s - Z.to_nat lo)%nat ∧
        elems h s' = take (Z.to_nat (hi - lo)) (drop (Z.to_nat lo) (elems h s)).
Proof.
  intros (b & arr & Hb & Harr & Hcap & Hlen) Hlo Hhi.
  unfold reslice. rewrite decide_True by lia.
  eexists. split; [done|]. simpl. split_and!; [|done..|].
  - exists b, arr. simpl. split_and!; [done|done|lia|lia].
  - unfold elems, backing. simpl. rewrite Hb, Harr. simpl.
    replace (len s) with (Z.to_nat lo + (len s - Z.to_nat lo)) at 1 by lia.
    rewrite <-take_drop_commute, take_take, drop_drop. f_equal. lia.
Qed.

(** *** [append] *)
Lemma write_at_length pos xs arr :
  pos + length xs ≤ length arr → length (write_at pos xs arr) = length arr.
Proof.
  intros Hle. unfold write_at.
  rewrite !length_app, length_take, length_drop. lia.
Qed.

Lemma write_at_window o pos xs arr :
  o ≤ pos → pos + length xs ≤ length arr →
  take (pos - o + length xs) (drop o (write_at pos xs arr))
  = take (pos - o) (drop o arr) ++ xs.
Proof.
  intros Ho Hle. unfold write_at.
  rewrite drop_app_le by (rewrite length_take; lia).
  assert (length (drop o (take pos arr)) = pos - o) as Hl
    by (rewrite length_drop, length_take; lia).
  rewrite <-Hl at 1. rewrite take_app_add, take_app_length.
  f_equal. rewrite take_drop_commute. do 2 f_equal. lia.
Qed.

Lemma write_at_before o pos xs arr :
  o ≤ pos → pos + length xs ≤ length arr →
  take (pos - o) (drop o (write_at pos xs arr)) = take (pos - o) (drop o arr).
Proof.
  intros Ho Hle. unfold write_at.
  rewrite drop_app_le by (rewrite length_take; lia).
  rewrite take_app_le by (rewrite length_drop, length_take; lia).
  rewrite take_ge by (rewrite length_drop, length_take; lia).
  rewrite take_drop_commute. do 2 f_equal. lia.
Qed.

Lemma append_spec h s xs :
  slice_ok h s →
  let '(h', s') := append h s xs in
  frames (base s) h h' ∧ slice_ok h' s' ∧
  elems h' s' = elems h s ++ xs ∧ elems h' s = elems h s ∧
  len s' = len s + length xs ∧
  (base s' = base s ∨ base s' = Some (length h)) ∧
  (len s + length xs ≤ cap s → base s' = base s).
Proof.
  intros Hok. pose proof Hok as (b & arr & Hb & Harr & Hcap & Hlen).
  unfold append. case_decide as Hfit.
  - rewrite Hb, Harr. simpl.
    assert (length (write_at (off s + len s) xs arr) = length arr) as Hl
      by (apply write_at_length; lia).
    split_and!; [| | | |done|by left|done].
    + by eapply frames_write.
    + exists b, (write_at (off s + len s) xs arr). simpl.
      rewrite list_lookup_insert_eq by (by eapply lookup_lt_Some).
      split_and!; [done|done|lia|done].
    + unfold elems, backing. simpl. rewrite Hb, Harr. simpl.
      rewrite list_lookup_insert_eq by (by eapply lookup_lt_Some). simpl.
      replace (len s + length xs) with (off s + len s - off s + length xs) by lia.
      rewrite write_at_window by lia. do 2 f_equal. lia.
    + unfold elems, backing. rewrite Hb, Harr. simpl.
      rewrite list_lookup_insert_eq by (by eapply lookup_lt_Some). simpl.
      replace (len s) with (off s + len s - off s) at 1 by lia.
      rewrite write_at_before by lia. f_equal. lia.
  - pose proof (elems_length h s Hok) as Hel.
    split_and!; [apply frames_alloc| | | |done|by right|lia].
    + eexists (length h), _. simpl. split_and!; [done| |done|].
      * by rewrite lookup_app_r, Nat.sub_diag.
      * rewrite !length_app. lia.
    + unfold elems at 1, backing. simpl.
      rewrite lookup_app_r, Nat.sub_diag by done. simpl.
      rewrite app_assoc. apply take_app_length'.
      rewrite length_app. lia.
    + eapply elems_frames; [done| |apply (frames_alloc None)]. congruence.
Qed.

Lemma append_nil_spec h xs :
  xs ≠ [] →
  let '(h', s') := append h nil_slice xs in
  frames None h h' ∧ slice_ok h' s' ∧ elems h' s' = xs ∧
  base s' = Some (length h).
Proof.
  intros Hxs. unfold append. simpl.
  rewrite decide_False by (destruct xs; [done|simpl; lia]).
  split_and!; [apply frames_alloc| | |done].
  - eexists (length h), _. simpl. split_and!; [done| |done|].
    + by rewrite lookup_app_r, Nat.sub_diag.
    + rewrite !length_app. lia.
  - unfold elems, backing. simpl.
    rewrite lookup_app_r, Nat.sub_diag by done. simpl.
    by rewrite drop_0, take_app_length.
Qed.

(** *** [append(s[:i-1], s[i:]...)]: the array of [s] without its [i]-th
    element, in place *)
Lemma remove_spec h s (index : Z) :
  slice_ok h s → (1 ≤ index ≤ Z.of_nat (len s))%Z →
  ∃ front back,
    reslice s 0 (index - 1) = Some front ∧
    reslice s index (Z.of_nat (len s)) = Some back ∧
    let '(h', s') := append h front (elems h back) in
    frames (base s) h h' ∧ slice_ok h' s' ∧ base s' = base s ∧
    elems h' s' = take (Z.to_nat (index - 1)) (elems h s)
                  ++ drop (Z.to_nat index) (elems h s).
Proof.
  intros Hok Hi.
  destruct (reslice_spec h s 0 (index - 1) Hok) as
    (front & Hfront & Hokf & Hbf & Hlf & Hcf & Hef); [lia..|].
  destruct (reslice_spec h s index (Z.of_nat (len s)) Hok) as
    (back & Hback & Hokb & Hbb & Hlb & Hcb & Heb); [lia..|].
  exists front, back. split; [done|]. split; [done|].
  pose proof (append_spec h front (elems h back) Hokf) as Happ.
  destruct (append h front (elems h back)) as [h' s'].
  destruct Happ as (Hfr & Hok' & Hel & _ & _ & _ & Hbase).
  pose proof (elems_length h back Hokb) as Hlenb.
  pose proof Hok as (b & arr & Hb & Harr & Hcap & Hlen).
  rewrite Hbf in Hfr, Hbase. split_and!; [done|done|apply Hbase; lia|].
  rewrite Hel, Hef, Heb. simpl. rewrite Z.sub_0_r. f_equal.
  apply take_ge. rewrite length_drop, elems_length by done. lia.
Qed.

(** *** The lists of a map *)
Lemma snapshot_lookup h m n : snapshot h m !! n = elems h <$> m !! n.
Proof. apply lookup_fmap. Qed.

Lemma lists_ok_empty h : lists_ok h ∅.
Proof. split; intros *; by rewrite ?lookup_empty. Qed.

Lemma lists_ok_others h m n s :
  lists_ok h m → m !! n = Some s →
  ∀ n2 s2, n2 ≠ n → m !! n2 = Some s2 → base s2 ≠ base s.
Proof. intros [_ Hdisj] Hn n2 s2 Hne Hn2. by eapply Hdisj. Qed.

(** One list is given a new slice [s'] after the heap changed in the
    array [a] at most, where no other list lives in [a] or in the array
    of [s']: the other lists read as before. *)
Lemma lists_assign h h' m n s' a :
  lists_ok h m → frames a h h' →
  (∀ n2 s2, n2 ≠ n → m !! n2 = Some s2 → base s2 ≠ a ∧ base s2 ≠ base s') →
  slice_ok h' s' →
  lists_ok h' (<[n := s']> m) ∧
  snapshot h' (<[n := s']> m) = <[n := elems h' s']> (snapshot h m).
Proof.
  intros [Hok Hdisj] Hfr Hown Hok'.
  split; [split|].
  - intros k s. rewrite lookup_insert. case_decide; [by intros [= <-]|].
    intros Hk. eapply slice_ok_frames; eauto.
  - intros n1 n2 s1 s2 Hne. rewrite !lookup_insert.
    repeat case_decide; simplify_eq; intros; simplify_eq;
      first [ match goal with
              | Ha : m !! ?k1 = Some ?x, Hb : m !! ?k2 = Some ?y
                |- base ?x ≠ base ?y =>
                  exact (Hdisj k1 k2 x y ltac:(congruence) Ha Hb)
              end
            | intros Heq;
              match goal with
              | Hl : m !! ?k = Some ?s |- _ =>
                  eapply (proj2 (Hown k s ltac:(congruence) Hl)); congruence
              end ].
  - apply map_eq. intros k. unfold snapshot.
    rewrite lookup_fmap, !lookup_insert. case_decide; [done|].
    rewrite lookup_fmap. destruct (m !! k) as [s2|] eqn:Hk; [|done]. simpl.
    f_equal. eapply elems_frames; [eauto| |done]. by eapply Hown.
Qed.

(** The same when [s'] is in [a] or in an array allocated since. *)
Lemma lists_update h h' m n s' a :
  lists_ok h m → frames a h h' →
  (∀ n2 s2, n2 ≠ n → m !! n2 = Some s2 → base s2 ≠ a) →
  slice_ok h' s' →
  base s' = a ∨ base s' = Some (length h) →
  lists_ok h' (<[n := s']> m) ∧
  snapshot h' (<[n := s']> m) = <[n := elems h' s']> (snapshot h m).
Proof.
  intros Hok Hfr Hown Hok' Hbase. apply (lists_assign h h' m n s' a); [done..| |done].
  intros n2 s2 Hne Hn2. split; [by eapply Hown|].
  destruct Hbase as [->| ->]; [by eapply Hown|].
  intros Heq. destruct Hok as [Hok _].
  pose proof (slice_ok_base_lt h s2 _ (Hok _ _ Hn2) Heq). lia.
Qed.

(** A change of the heap that no list can see. *)
Lemma lists_heap_change h h' m a :
  lists_ok h m → frames a h h' →
  (∀ n s, m !! n = Some s → base s = a → elems h' s = elems h s) →
  lists_ok h' m ∧ snapshot h' m = snapshot h m.
Proof.
  intros [Hok Hdisj] Hfr Hsame. split; [split|].
  - intros n s Hn. eapply slice_ok_frames; eauto.
  - done.
  - apply map_eq. intros k. unfold snapshot. rewrite !lookup_fmap.
    destruct (m !! k) as [s|] eqn:Hk; [|done]. simpl. f_equal.
    destruct (decide (base s = a)) as [Ha|Ha]; [by eapply Hsame|].
    eapply elems_frames; eauto.
Qed.
End slice_facts.

(** ** The cases of the handler, one by one *)

Section server_facts.
Context `{!GoRuntime}.
Implicit Types (st : store) (r : request) (l : list Task).

Lemma view_lookup st n : view st !! n = elems (heap st) <$> taskLists st !! n.
Proof. apply lookup_fmap. Qed.

Lemma view_Some st n l :
  view st !! n = Some l ↔
  ∃ s, taskLists st !! n = Some s ∧ elems (heap st) s = l.
Proof.
  rewrite view_lookup. destruct (taskLists st !! n) as [s|]; simpl.
  - split; [intros [= <-]; eauto|]. by intros (s' & [= <-] & <-).
  - split; [done|]. by intros (s' & ? & _).
Qed.

Lemma view_None st n : view st !! n = None ↔ taskLists st !! n = None.
Proof. rewrite view_lookup. by destruct (taskLists st !! n). Qed.

Lemma view_length st n s :
  store_inv st → taskLists st !! n = Some s →
  length (elems (heap st) s) = len s.
Proof. intros [[Hok _] _] Hn. apply elems_length. eauto. Qed.

Lemma store_inv_empty : store_inv empty_store.
Proof. split; [apply lists_ok_empty|done]. Qed.

Lemma store_inv_name st n : store_inv st → is_Some (taskLists st !! n) → n ≠ "".
Proof. intros [_ He] [s Hs] ->. congruence. Qed.

(** *** Create *)
Lemma CreateList_exists st n :
  is_Some (taskLists st !! n) →
  CreateList st n = Some (st, http_Error "Task list already exists" StatusConflict).
Proof. intros [s Hs]. unfold CreateList. by rewrite Hs. Qed.

Lemma CreateList_new st n :
  store_inv st → n ≠ "" → taskLists st !! n = None →
  ∃ st', CreateList st n
         = Some (st', writeJSON (JMessage [ ("list", n);
                                            ("message", "Task list created") ])) ∧
         store_inv st' ∧ view st' = <[n := []]> (view st).
Proof.
  intros [Hok He] Hn Hnone. unfold CreateList. rewrite Hnone.
  pose proof (empty_literal_spec (heap st)) as Hlit.
  destruct (empty_literal (heap st)) as [h s].
  destruct Hlit as (Hfr & Hoks & Hel & Hbase).
  eexists. split; [done|].
  destruct (lists_update (heap st) h (taskLists st) n s None Hok Hfr) as [Hok' Hsnap];
    [|done|by right|].
  { intros n2 s2 _ Hn2 Hb. destruct Hok as [Hok _].
    destruct (Hok _ _ Hn2) as (b & ? & ? & _). congruence. }
  split; [split|]; simpl.
  - done.
  - by rewrite lookup_insert_ne.
  - unfold view. simpl. by rewrite Hsnap, Hel.
Qed.

(** *** Add *)
Lemma AppendTask_malformed st n b :
  Decode b zero = None →
  AppendTask st n b = Some (st, http_Error "Invalid task data" StatusBadRequest).
Proof. intros Hd. unfold AppendTask. by rewrite Hd. Qed.

Lemma AppendTask_spec st n b t :
  store_inv st → n ≠ "" → Decode b zero = Some t →
  ∃ st', AppendTask st n b
         = Some (st', writeJSON (JMessage [ ("message", "Task added");
                                            ("task", Description t) ])) ∧
         store_inv st' ∧
         view st' = <[n := default [] (view st !! n) ++ [t]]> (view st).
Proof.
  intros [Hok He] Hn Hd. unfold AppendTask. rewrite Hd.
  rewrite view_lookup.
  destruct (taskLists st !! n) as [s|] eqn:Hs;
    cbn [default from_option fmap option_fmap option_map id].
  - pose proof (append_spec (heap st) s [t]) as Happ.
    destruct (append (heap st) s [t]) as [h s'].
    destruct Happ as (Hfr & Hok' & Hel & _ & _ & Hbase & _);
      [destruct Hok as [Hok _]; eauto|].
    eexists. split; [done|].
    destruct (lists_update (heap st) h (taskLists st) n s' (base s) Hok Hfr)
      as [Hok2 Hsnap]; [by eapply lists_ok_others|done|done|].
    split; [split|]; simpl; [done|by rewrite lookup_insert_ne|].
    unfold view. simpl. by rewrite Hsnap, Hel.
  - pose proof (append_nil_spec (heap st) [t]) as Happ.
    destruct (append (heap st) nil_slice [t]) as [h s'].
    destruct Happ as (Hfr & Hok' & Hel & Hbase); [done|].
    eexists. split; [done|].
    destruct (lists_update (heap st) h (taskLists st) n s' None Hok Hfr)
      as [Hok2 Hsnap]; [|done|by right|].
    { intros n2 s2 _ Hn2 Hb. destruct Hok as [Hok _].
      destruct (Hok _ _ Hn2) as (a & ? & ? & _). congruence. }
    split; [split|]; simpl; [done|by rewrite lookup_insert_ne|].
    unfold view. simpl. by rewrite Hsnap, Hel.
Qed.

(** *** Toggle and delete: the checks on the index *)
Lemma ToggleTask_invalid st n part :
  (∀ index, Atoi part = Some index → index < 1)%Z →
  ToggleTask st n part = Some (st, http_Error "Invalid task index" StatusBadRequest).
Proof.
  intros Hi. unfold ToggleTask. destruct (Atoi part) as [index|]; [|done].
  by rewrite decide_True by (by apply Hi).
Qed.

Lemma DeleteTask_invalid st n part :
  (∀ index, Atoi part = Some index → index < 1)%Z →
  DeleteTask st n part = Some (st, http_Error "Invalid task index" StatusBadRequest).
Proof.
  intros Hi. unfold DeleteTask. destruct (Atoi part) as [index|]; [|done].
  by rewrite decide_True by (by apply Hi).
Qed.

Lemma ToggleTask_not_found st n part index :
  Atoi part = Some index → (1 ≤ index)%Z → taskLists st !! n = None →
  ToggleTask st n part = Some (st, http_Error "Task list not found" StatusNotFound).
Proof.
  intros Ha Hi Hn. unfold ToggleTask. rewrite Ha, decide_False by lia. by rewrite Hn.
Qed.

Lemma DeleteTask_not_found st n part index :
  Atoi part = Some index → (1 ≤ index)%Z → taskLists st !! n = None →
  DeleteTask st n part = Some (st, http_Error "Task list not found" StatusNotFound).
Proof.
  intros Ha Hi Hn. unfold DeleteTask. rewrite Ha, decide_False by lia. by rewrite Hn.
Qed.

Lemma ToggleTask_out_of_range st n part index l :
  store_inv st → Atoi part = Some index → view st !! n = Some l →
  (Z.of_nat (length l) < index)%Z →
  ToggleTask st n part = Some (st, http_Error "Task index out of range" StatusBadRequest).
Proof.
  intros Hinv Ha (s & Hs & <-)%view_Some Hi.
  rewrite (view_length st n s) in Hi by done.
  unfold ToggleTask. rewrite Ha, decide_False by lia. rewrite Hs.
  by rewrite decide_True by lia.
Qed.

Lemma DeleteTask_out_of_range st n part index l :
  store_inv st → Atoi part = Some index → view st !! n = Some l →
  (Z.of_nat (length l) < index)%Z →
  DeleteTask st n part = Some (st, http_Error "Task index out of range" StatusBadRequest).
Proof.
  intros Hinv Ha (s & Hs & <-)%view_Some Hi.
  rewrite (view_length st n s) in Hi by done.
  unfold DeleteTask. rewrite Ha, decide_False by lia. rewrite Hs.
  by rewrite decide_True by lia.
Qed.

(** *** Toggle and delete at an index of the list *)
Lemma ToggleTask_spec st n part index l :
  store_inv st → Atoi part = Some index → view st !! n = Some l →
  (1 ≤ index ≤ Z.of_nat (length l))%Z →
  ∃ st' t,
    l !! Z.to_nat (index - 1) = Some t ∧
    ToggleTask st n part
    = Some (st', writeJSON (JMessage [ ("message", "Task status toggled") ])) ∧
    store_inv st' ∧
    view st' = <[n := <[Z.to_nat (index - 1) :=
                          mkTask (Description t) (negb (Status t))]> l]> (view st).
Proof.
  intros Hinv Ha (s & Hs & <-)%view_Some Hi.
  rewrite (view_length st n s) in Hi by done.
  destruct Hinv as [Hok He]. pose proof Hok as [Hoks _].
  specialize (Hoks _ _ Hs).
  destruct (lookup_lt_is_Some_2 (elems (heap st) s) (Z.to_nat (index - 1))) as [t Ht].
  { rewrite elems_length by done. lia. }
  unfold ToggleTask. rewrite Ha, decide_False by lia. rewrite Hs.
  rewrite decide_False by lia.
  rewrite slice_get_elems, Ht by (done || lia). simpl.
  destruct (slice_set_spec (heap st) s (index - 1)
              (mkTask (Description t) (negb (Status t))) Hoks) as (h & -> & Hfr & Hel);
    [lia|]. simpl.
  exists (Store h (<[n := s]> (taskLists st))), t. split; [done|]. split; [done|].
  destruct (lists_update (heap st) h (taskLists st) n s (base s) Hok Hfr)
    as [Hok2 Hsnap]; [by eapply lists_ok_others| |by left|].
  { by eapply slice_ok_frames. }
  split; [split|]; simpl; [done| |].
  - rewrite lookup_insert_ne; [done|]. intros ->. congruence.
  - unfold view. simpl. by rewrite Hsnap, Hel.
Qed.

Lemma DeleteTask_spec st n part index l :
  store_inv st → Atoi part = Some index → view st !! n = Some l →
  (1 ≤ index ≤ Z.of_nat (length l))%Z →
  ∃ st',
    DeleteTask st n part
    = Some (st', writeJSON (JMessage [ ("message", "Task deleted") ])) ∧
    store_inv st' ∧
    view st' = <[n := take (Z.to_nat (index - 1)) l ++ drop (Z.to_nat index) l]> (view st).
Proof.
  intros Hinv Ha (s & Hs & <-)%view_Some Hi.
  rewrite (view_length st n s) in Hi by done.
  destruct Hinv as [Hok He]. pose proof Hok as [Hoks _].
  specialize (Hoks _ _ Hs).
  unfold DeleteTask. rewrite Ha, decide_False by lia. rewrite Hs.
  rewrite decide_False by lia.
  destruct (remove_spec (heap st) s index Hoks Hi) as (front & back & -> & -> & Happ).
  simpl. destruct (append (heap st) front (elems (heap st) back)) as [h s'].
  destruct Happ as (Hfr & Hok' & Hbase & Hel).
  eexists. split; [done|].
  destruct (lists_update (heap st) h (taskLists st) n s' (base s) Hok Hfr)
    as [Hok2 Hsnap]; [by eapply lists_ok_others|done|by left|].
  split; [split|]; simpl; [done| |].
  - rewrite lookup_insert_ne; [done|]. intros ->. congruence.
  - unfold view. simpl. by rewrite Hsnap, Hel.
Qed.
End server_facts.

(** ** Which case of the [switch] serves a request *)

Section routing.
Context `{!GoRuntime}.
Implicit Types (st : store) (r : request).

Ltac route Hparts Hm :=
  unfold handleListOperations; rewrite Hparts, Hm; simpl;
  rewrite decide_False by (intros [?|[= ?]]; [lia|done]); simpl;
  repeat (let Hc := fresh "Hc" in
          case_decide as Hc; simpl;
          [try (exfalso; destruct_and?; simplify_eq; lia) |
           try (exfalso; apply Hc; by split_and?)]);
  try done.

Lemma route_create st r n :
  parts r = [n] → n ≠ "" → Method r = MethodPost →
  handleListOperations st r = CreateList st n.
Proof. intros Hp Hn Hm. route Hp Hm. Qed.


Lemma route_add st r n :
  parts r = [n; "tasks"] → n ≠ "" → Method r = MethodPost →
  handleListOperations st r = AppendTask st n (Body r).
Proof. intros Hp Hn Hm. route Hp Hm. Qed.

Lemma route_toggle st r n part :
  parts r = [n; "tasks"; part] → n ≠ "" → Method r = MethodPut →
  handleListOperations st r = ToggleTask st n part.
Proof. intros Hp Hn Hm. route Hp Hm. Qed.

Lemma route_delete st r n part :
  parts r = [n; "tasks"; part] → n ≠ "" → Method r = MethodDelete →
  handleListOperations st r = DeleteTask st n part.
Proof. intros Hp Hn Hm. route Hp Hm. Qed.

(** A request with an empty list name is refused before the store is
    looked at. *)
Lemma route_no_name st r rest :
  parts r = "" :: rest →
  handleListOperations st r
  = Some (st, http_Error "List name required" StatusBadRequest).
Proof.
  intros Hp. unfold handleListOperations. rewrite Hp.
  by rewrite decide_True by (by right).
Qed.

(** Every request ends in one of the five cases, on a list with a
    non-empty name, or leaves the store as it is. *)
Lemma handleListOperations_cases st r :
  (∃ resp, handleListOperations st r = Some (st, resp)) ∨
  ∃ n, n ≠ "" ∧ parts r !! 0 = Some n ∧
    (handleListOperations st r = CreateList st n ∨
     handleListOperations st r = GetTasks st n ∨
     handleListOperations st r = AppendTask st n (Body r) ∨
     (∃ part, handleListOperations st r = ToggleTask st n part) ∨
     (∃ part, handleListOperations st r = DeleteTask st n part)).
Proof.
  unfold handleListOperations.
  case_decide as H0; [eauto|].
  destruct (parts r) as [|n ps] eqn:Hp; [simpl in H0; exfalso; apply H0; left; lia|].
  simpl. assert (n ≠ "") as Hn by (intros ->; apply H0; by right).
  repeat case_decide; eauto 10.
  - destruct ps as [|? [|part [|]]]; simpl in *; destruct_and?; try lia.
    right. exists n. eauto 10.
  - destruct ps as [|? [|part [|]]]; simpl in *; destruct_and?; try lia.
    right. exists n. eauto 10.
Qed.
End routing.

(** ** The invariant, and what a call may change *)

Section invariant.
Context `{!GoRuntime}.
Implicit Types (st : store) (r : request) (c : call).

Lemma ToggleTask_total st n part :
  store_inv st →
  ∃ st' resp, ToggleTask st n part = Some (st', resp) ∧ store_inv st' ∧
    (st' = st ∨ ∃ l l', view st !! n = Some l ∧ length l' = length l ∧
                        view st' = <[n := l']> (view st)).
Proof.
  intros Hinv. destruct (Atoi part) as [index|] eqn:Ha; cycle 1.
  { exists st; eexists. rewrite ToggleTask_invalid by (intros; congruence). eauto. }
  destruct (decide (index < 1)%Z).
  { exists st; eexists.
    rewrite ToggleTask_invalid by (intros; simplify_eq; lia). eauto. }
  destruct (view st !! n) as [l|] eqn:Hl; cycle 1.
  { exists st; eexists. apply view_None in Hl.
    erewrite ToggleTask_not_found by (done || lia). eauto. }
  destruct (decide (Z.of_nat (length l) < index)%Z).
  { exists st; eexists. erewrite ToggleTask_out_of_range by done. eauto. }
  destruct (ToggleTask_spec st n part index l) as (st' & t & Ht & -> & Hinv' & Hv);
    [done|done|done|lia|].
  exists st'; eexists. split_and!; [done|done|]. right.
  eexists l, _. split_and!; [done| |done]. by rewrite length_insert.
Qed.

Lemma DeleteTask_total st n part :
  store_inv st →
  ∃ st' resp, DeleteTask st n part = Some (st', resp) ∧ store_inv st' ∧
    (st' = st ∨ ∃ l l', view st !! n = Some l ∧ S (length l') = length l ∧
                        view st' = <[n := l']> (view st)).
Proof.
  intros Hinv. destruct (Atoi part) as [index|] eqn:Ha; cycle 1.
  { exists st; eexists. rewrite DeleteTask_invalid by (intros; congruence). eauto. }
  destruct (decide (index < 1)%Z).
  { exists st; eexists.
    rewrite DeleteTask_invalid by (intros; simplify_eq; lia). eauto. }
  destruct (view st !! n) as [l|] eqn:Hl; cycle 1.
  { exists st; eexists. apply view_None in Hl.
    erewrite DeleteTask_not_found by (done || lia). eauto. }
  destruct (decide (Z.of_nat (length l) < index)%Z).
  { exists st; eexists. erewrite DeleteTask_out_of_range by done. eauto. }
  destruct (DeleteTask_spec st n part index l) as (st' & -> & Hinv' & Hv);
    [done|done|done|lia|].
  exists st'; eexists. split_and!; [done|done|]. right.
  eexists l, _. split_and!; [done| |done].
  rewrite length_app, length_take, length_drop. lia.
Qed.

(** A call never panics, keeps the invariant, and either leaves the
    store as it is or gives one list (with a non-empty name) new contents. *)
Lemma handleListOperations_post st r :
  store_inv st →
  ∃ st' resp, handleListOperations st r = Some (st', resp) ∧ store_inv st' ∧
    (st' = st ∨ ∃ n l', n ≠ "" ∧ view st' = <[n := l']> (view st)).
Proof.
  intros Hinv.
  destruct (handleListOperations_cases st r) as
    [[resp ->]|(n & Hn & _ & [-> | [-> | [-> | [[part ->] | [part ->]]]]])].
  - eauto 10.
  - destruct (taskLists st !! n) as [s|] eqn:Hs.
    + rewrite CreateList_exists by eauto. eauto 10.
    + destruct (CreateList_new st n) as (st' & -> & ? & ?); [done..|]. eauto 10.
  - unfold GetTasks. destruct (taskLists st !! n); eauto 10.
  - destruct (Decode (Body r) zero) as [t|] eqn:Hd.
    + destruct (AppendTask_spec st n (Body r) t) as (st' & -> & ? & ?); [done..|].
      eauto 10.
    + rewrite AppendTask_malformed by done. eauto 10.
  - destruct (ToggleTask_total st n part Hinv)
      as (st' & resp & -> & ? & [->|(l & l' & _ & _ & ?)]); eauto 10.
  - destruct (DeleteTask_total st n part Hinv)
      as (st' & resp & -> & ? & [->|(l & l' & _ & _ & ?)]); eauto 10.
Qed.

Lemma handle_post st c :
  store_inv st →
  ∃ st' resp, handle st c = Some (st', resp) ∧ store_inv st' ∧
    (st' = st ∨ ∃ n l', n ≠ "" ∧ view st' = <[n := l']> (view st)).
Proof.
  intros Hinv. destruct c as [r|r]; simpl.
  - unfold handleLists. case_decide; eauto 10.
  - by apply handleListOperations_post.
Qed.

Lemma view_dom st : dom (view st) = dom (taskLists st).
Proof. unfold view, snapshot. apply dom_fmap_L. Qed.

Lemma serve_post st cs :
  store_inv st →
  ∃ st' resps, serve st cs = Some (st', resps) ∧ store_inv st' ∧
    length resps = length cs ∧ dom (taskLists st) ⊆ dom (taskLists st').
Proof.
  revert st. induction cs as [|c cs IH]; intros st Hinv; simpl.
  - eauto 10.
  - destruct (handle_post st c Hinv) as (st1 & resp & -> & Hinv1 & Hch). simpl.
    destruct (IH st1 Hinv1) as (st2 & resps & -> & Hinv2 & Hlen & Hdom). simpl.
    eexists _, _. split_and!; [done|done|simpl; lia|].
    etrans; [|exact Hdom]. rewrite <-!view_dom.
    destruct Hch as [->|(n & l' & _ & ->)]; [done|].
    rewrite dom_insert_L. set_solver.
Qed.

(** Every store the server can be in, from its start with the empty map,
    satisfies the invariant. *)
Lemma reachable_inv cs st resps :
  serve empty_store cs = Some (st, resps) → store_inv st.
Proof.
  intros Hs. destruct (serve_post empty_store cs store_inv_empty)
    as (st' & resps' & Hs' & Hinv & _). congruence.
Qed.
End invariant.

(** ** The operations of the HTTP surface *)

Section operations.
Context `{!GoRuntime}.
Implicit Types (st : store) (r : request) (l : list Task).

(** Adding a task to a name the map does not have: the handler has no
    existence check, so the list comes into being with this one task. *)
Lemma AppendTask_absent st n b t :
  store_inv st → n ≠ "" → Decode b zero = Some t → view st !! n = None →
  ∃ st', AppendTask st n b
         = Some (st', writeJSON (JMessage [ ("message", "Task added");
                                            ("task", Description t) ])) ∧
         view st' = <[n := [t]]> (view st).
Proof.
  intros Hinv Hn Hd Hv.
  destruct (AppendTask_spec st n b t) as (st' & Hr & _ & Hv'); [done..|].
  rewrite Hv in Hv'. eauto.
Qed.

(** C1 (the code at the failing input).  On the empty store,
    [POST /lists/ghost/tasks] with the body [{"description": "x"}] is
    answered with status 200 and "Task added", and afterwards the store
    has a list "ghost" holding that task: the request is not refused with
    404 and the store does not stay as it was. *)
Theorem C1_add_task_to_absent_list_creates_it :
  let r := Request MethodPost "/lists/ghost/tasks" (TaskJSON (Some "x") None) in
  view empty_store !! "ghost" = None ∧
  ∃ st', handleListOperations empty_store r
         = Some (st', Response 200 (JSON (JMessage [ ("message", "Task added");
                                                     ("task", "x") ]))) ∧
         view st' = {[ "ghost" := [mkTask "x" false] ]}.
Proof.
  intros r. split; [done|].
  rewrite (route_add empty_store r "ghost") by done.
  destruct (AppendTask_absent empty_store "ghost" (Body r) (mkTask "x" false))
    as (st' & Hr & Hv); [apply store_inv_empty|done..|].
  exists st'. split; [exact Hr|]. rewrite Hv. done.
Qed.

(** C2.  On a list of N tasks, a toggle or delete request succeeds
    exactly when its index segment is a numeral that [strconv.Atoi] reads
    as an [int] between 1 and N.  A segment that [Atoi] rejects (no
    numeral, or a numeral beyond the 64 bits of an [int]) or reads as less
    than 1 is answered with 400 "Invalid task index" whatever the store is
    (the store is not looked at); a segment read as an [int] above N is
    answered with 400 "Task index out of range"; and whenever the request
    is not answered with 200, the store is left exactly as it was. *)
Theorem C2_index_validation st r n part l :
  store_inv st →
  Method r = MethodPut ∨ Method r = MethodDelete →
  parts r = [n; "tasks"; part] →
  view st !! n = Some l →
  ((∀ index, Atoi part = Some index → (index < 1)%Z) →
     ∀ st0, handleListOperations st0 r
            = Some (st0, http_Error "Invalid task index" StatusBadRequest)) ∧
  (∀ index, Atoi part = Some index → (Z.of_nat (length l) < index)%Z →
     handleListOperations st r
     = Some (st, http_Error "Task index out of range" StatusBadRequest)) ∧
  ((∃ st' resp, handleListOperations st r = Some (st', resp) ∧ code resp = StatusOK)
   ↔ ∃ index, Atoi part = Some index ∧ (1 ≤ index ≤ Z.of_nat (length l))%Z) ∧
  (∀ st' resp, handleListOperations st r = Some (st', resp) →
               code resp ≠ StatusOK → st' = st).
Proof.
  intros Hinv Hm Hp Hl.
  assert (n ≠ "") as Hn.
  { eapply store_inv_name; [done|]. apply view_Some in Hl as (s & -> & _). eauto. }
  assert (∀ st0, handleListOperations st0 r = ToggleTask st0 n part ∨
                 handleListOperations st0 r = DeleteTask st0 n part) as Hroute.
  { intros st0. destruct Hm as [Hm|Hm];
      [left; by apply route_toggle|right; by apply route_delete]. }
  assert ((∀ index, Atoi part = Some index → (index < 1)%Z) →
     ∀ st0, handleListOperations st0 r
            = Some (st0, http_Error "Invalid task index" StatusBadRequest)) as Hlow.
  { intros Hi st0. destruct (Hroute st0) as [-> | ->].
    - by apply ToggleTask_invalid.
    - by apply DeleteTask_invalid. }
  assert (∀ index, Atoi part = Some index → (Z.of_nat (length l) < index)%Z →
     handleListOperations st r
     = Some (st, http_Error "Task index out of range" StatusBadRequest)) as Hhigh.
  { intros index Ha Hi. destruct (Hroute st) as [-> | ->].
    - by eapply ToggleTask_out_of_range.
    - by eapply DeleteTask_out_of_range. }
  assert (∀ index, Atoi part = Some index → (1 ≤ index ≤ Z.of_nat (length l))%Z →
     ∃ st' resp, handleListOperations st r = Some (st', resp) ∧ code resp = StatusOK)
    as Hgood.
  { intros index Ha Hi. destruct (Hroute st) as [-> | ->].
    - destruct (ToggleTask_spec st n part index l) as (st' & t & _ & -> & _);
        [done..|]. eauto.
    - destruct (DeleteTask_spec st n part index l) as (st' & -> & _); [done..|].
      eauto. }
  assert ((∀ index, Atoi part = Some index → (index < 1)%Z) ∨
          (∃ index, Atoi part = Some index ∧ (Z.of_nat (length l) < index)%Z) ∨
          (∃ index, Atoi part = Some index ∧ (1 ≤ index ≤ Z.of_nat (length l))%Z))
    as Hcases.
  { destruct (Atoi part) as [index|]; [|by left].
    destruct (decide (index < 1)%Z); [left; intros; by simplify_eq|].
    destruct (decide (Z.of_nat (length l) < index)%Z); [right; left; eauto|].
    right. right. exists index. split; [done|lia]. }
  split_and!; [done|done| |].
  - split; [|intros (index & Ha & Hi); eauto].
    intros (st' & resp & Hr & Hc).
    destruct Hcases as [Hi|[(index & Ha & Hi)|Hi]]; [| |done].
    + rewrite (Hlow Hi st) in Hr. by simplify_eq.
    + rewrite (Hhigh index Ha Hi) in Hr. by simplify_eq.
  - intros st' resp Hr Hc.
    destruct Hcases as [Hi|[(index & Ha & Hi)|(index & Ha & Hi)]].
    + rewrite (Hlow Hi st) in Hr. by simplify_eq.
    + rewrite (Hhigh index Ha Hi) in Hr. by simplify_eq.
    + destruct (Hgood index Ha Hi) as (st2 & resp2 & Hr2 & Hc2).
      rewrite Hr2 in Hr. by simplify_eq.
Qed.

(** C3.  Once [POST /lists/{name}] has succeeded, the same request made
    again later, after any further calls (more create requests among
    them), is answered with 409 "Task list already exists" and leaves the
    store, the list's contents included, exactly as it was: a name is
    created at most once and never overwritten. *)
Theorem C3_create_at_most_once st r st1 resp1 cs :
  store_inv st →
  Method r = MethodPost → length (parts r) = 1 →
  handleListOperations st r = Some (st1, resp1) → code resp1 = StatusOK →
  ∃ st2 resps,
    serve st1 cs = Some (st2, resps) ∧
    handleListOperations st2 r
    = Some (st2, http_Error "Task list already exists" StatusConflict).
Proof.
  intros Hinv Hm Hlen Hr Hc.
  destruct (parts r) as [|n [|]] eqn:Hp; simplify_eq/=.
  destruct (decide (n = "")) as [->|Hn].
  { rewrite (route_no_name st r []) in Hr by done. by simplify_eq. }
  rewrite (route_create st r n) in Hr by done.
  assert (store_inv st1 ∧ is_Some (taskLists st1 !! n)) as [Hinv1 Hin1].
  { destruct (taskLists st !! n) as [s|] eqn:Hs.
    - rewrite CreateList_exists in Hr by eauto. by simplify_eq.
    - destruct (CreateList_new st n) as (st' & Hr' & Hinv' & Hv); [done..|].
      rewrite Hr' in Hr. simplify_eq. split; [done|].
      apply elem_of_dom. rewrite <-view_dom, Hv, dom_insert_L. set_solver. }
  destruct (serve_post st1 cs Hinv1) as (st2 & resps & Hs & Hinv2 & _ & Hdom).
  exists st2, resps. split; [done|].
  rewrite (route_create st2 r n) by done.
  apply CreateList_exists. apply elem_of_dom, Hdom, elem_of_dom, Hin1.
Qed.

(** C4.  Deleting at a valid index i of a list of N tasks succeeds and
    leaves a list of N-1 tasks: the tasks before position i stay where
    they were and each later task moves one position down, so the task
    that was at position i+1 is at position i. *)
Theorem C4_delete_closes_the_gap st r n part index l :
  store_inv st →
  Method r = MethodDelete → parts r = [n; "tasks"; part] →
  Atoi part = Some index → view st !! n = Some l →
  (1 ≤ index ≤ Z.of_nat (length l))%Z →
  ∃ st' l',
    handleListOperations st r
    = Some (st', writeJSON (JMessage [ ("message", "Task deleted") ])) ∧
    view st' !! n = Some l' ∧
    S (length l') = length l ∧
    l' = take (Z.to_nat index - 1) l ++ drop (Z.to_nat index) l ∧
    (∀ j, j < Z.to_nat index - 1 → l' !! j = l !! j) ∧
    (∀ j, Z.to_nat index - 1 ≤ j → l' !! j = l !! S j).
Proof.
  intros Hinv Hm Hp Ha Hl Hi.
  assert (n ≠ "") as Hn.
  { eapply store_inv_name; [done|]. apply view_Some in Hl as (s & -> & _). eauto. }
  rewrite (route_delete st r n part) by done.
  destruct (DeleteTask_spec st n part index l) as (st' & -> & _ & Hv); [done..|].
  replace (Z.to_nat (index - 1)) with (Z.to_nat index - 1) in Hv by lia.
  eexists st', _. split; [done|]. rewrite Hv, lookup_insert_eq.
  split; [done|].
  assert (length (take (Z.to_nat index - 1) l) = Z.to_nat index - 1) as Htl
    by (rewrite length_take; lia).
  split_and!; [|done| |].
  - rewrite length_app, Htl, length_drop. lia.
  - intros j Hj. rewrite lookup_app_l by lia. by apply lookup_take_lt.
  - intros j Hj. rewrite lookup_app_r by lia. rewrite Htl, lookup_drop.
    f_equal. lia.
Qed.

(** C5.  Toggling a valid index twice in succession gives the task at
    that position its original status back; both requests succeed and
    the second one restores the whole list. *)
Theorem C5_toggle_twice st r n part index l :
  store_inv st →
  Method r = MethodPut → parts r = [n; "tasks"; part] →
  Atoi part = Some index → view st !! n = Some l →
  (1 ≤ index ≤ Z.of_nat (length l))%Z →
  ∃ st1 st2 resp1 resp2 l1 t t1,
    handleListOperations st r = Some (st1, resp1) ∧ code resp1 = StatusOK ∧
    handleListOperations st1 r = Some (st2, resp2) ∧ code resp2 = StatusOK ∧
    l !! (Z.to_nat index - 1) = Some t ∧
    view st1 !! n = Some l1 ∧ l1 !! (Z.to_nat index - 1) = Some t1 ∧
    Status t1 = negb (Status t) ∧
    view st2 !! n = Some l.
Proof.
  intros Hinv Hm Hp Ha Hl Hi.
  assert (n ≠ "") as Hn.
  { eapply store_inv_name; [done|]. apply view_Some in Hl as (s & -> & _). eauto. }
  pose proof (route_toggle st r n part Hp Hn Hm) as Hr.
  destruct (ToggleTask_spec st n part index l) as (st1 & t & Ht & Hr1 & Hinv1 & Hv1);
    [done..|].
  pose proof (route_toggle st1 r n part Hp Hn Hm) as Hr'.
  replace (Z.to_nat (index - 1)) with (Z.to_nat index - 1) in * by lia.
  set (t1 := mkTask (Description t) (negb (Status t))) in *.
  set (l1 := <[Z.to_nat index - 1 := t1]> l) in *.
  assert (view st1 !! n = Some l1) as Hl1 by (by rewrite Hv1, lookup_insert_eq).
  assert (l1 !! (Z.to_nat index - 1) = Some t1) as Ht1.
  { apply list_lookup_insert_eq. lia. }
  destruct (ToggleTask_spec st1 n part index l1) as (st2 & t1' & Ht1' & Hr2 & _ & Hv2);
    [done|done|done|unfold l1; rewrite length_insert; lia|].
  replace (Z.to_nat (index - 1)) with (Z.to_nat index - 1) in * by lia.
  assert (t1' = t1) as -> by congruence.
  exists st1, st2. do 2 eexists. exists l1, t, t1.
  split_and!; [by rewrite Hr, Hr1|done|by rewrite Hr', Hr2|done..|].
  rewrite Hv2, lookup_insert_eq. f_equal. unfold l1.
  rewrite list_insert_insert_eq. simpl. rewrite negb_involutive.
  apply list_insert_id. by destruct t.
Qed.


(** C7.  An add-task body is taken as it comes: a field that is missing
    keeps the zero value, so a body without a status field appends a task
    whose status is false, and a description that is the empty string is
    appended like any other; the request is answered with 200. *)
Theorem C7_status_defaults_to_false st r n d s :
  store_inv st → n ≠ "" →
  Method r = MethodPost → parts r = [n; "tasks"] →
  Body r = TaskJSON d s →
  ∃ st' resp l t,
    handleListOperations st r = Some (st', resp) ∧ code resp = StatusOK ∧
    view st' !! n = Some (l ++ [t]) ∧
    Description t = default "" d ∧ Status t = default false s ∧
    (s = None → Status t = false) ∧
    (d = Some "" → Description t = "").
Proof.
  intros Hinv Hn Hm Hp Hb.
  rewrite (route_add st r n) by done.
  destruct (AppendTask_spec st n (Body r) (mkTask (default "" d) (default false s)))
    as (st' & -> & _ & Hv); [done|done|by rewrite Hb|].
  exists st'.
  eexists _, (default [] (view st !! n)), (mkTask (default "" d) (default false s)).
  split_and!; [done|done| |done|done|by intros ->|by intros ->].
  by rewrite Hv, lookup_insert_eq.
Qed.

(** C9.  A list name that is in the store is still in it after any
    sequence of calls (none of which panics): no operation removes a
    list. *)
Theorem C9_names_are_never_removed st cs n :
  store_inv st → is_Some (taskLists st !! n) →
  ∃ st' resps, serve st cs = Some (st', resps) ∧ length resps = length cs ∧
               is_Some (taskLists st' !! n).
Proof.
  intros Hinv Hn.
  destruct (serve_post st cs Hinv) as (st' & resps & Hs & _ & Hlen & Hdom).
  exists st', resps. split_and!; [done..|].
  apply elem_of_dom, Hdom, elem_of_dom, Hn.
Qed.

(** C10.  A successful toggle at index i changes the status bit of the
    task at position i and nothing else: that task keeps its description,
    the list keeps its length and its other tasks, and every other list
    of the store reads as before. *)
Theorem C10_toggle_frame st r n part index l :
  store_inv st →
  Method r = MethodPut → parts r = [n; "tasks"; part] →
  Atoi part = Some index → view st !! n = Some l →
  (1 ≤ index ≤ Z.of_nat (length l))%Z →
  ∃ st' l' t t',
    handleListOperations st r
    = Some (st', writeJSON (JMessage [ ("message", "Task status toggled") ])) ∧
    l !! (Z.to_nat index - 1) = Some t ∧
    view st' !! n = Some l' ∧ l' !! (Z.to_nat index - 1) = Some t' ∧
    Description t' = Description t ∧ Status t' = negb (Status t) ∧
    length l' = length l ∧
    (∀ j, j ≠ Z.to_nat index - 1 → l' !! j = l !! j) ∧
    (∀ n', n' ≠ n → view st' !! n' = view st !! n') ∧
    dom (view st') = dom (view st).
Proof.
  intros Hinv Hm Hp Ha Hl Hi.
  assert (n ≠ "") as Hn.
  { eapply store_inv_name; [done|]. apply view_Some in Hl as (s & -> & _). eauto. }
  rewrite (route_toggle st r n part) by done.
  destruct (ToggleTask_spec st n part index l) as (st' & t & Ht & -> & _ & Hv);
    [done..|].
  replace (Z.to_nat (index - 1)) with (Z.to_nat index - 1) in * by lia.
  exists st'. eexists _, t, _. split; [done|]. split; [done|].
  rewrite Hv, lookup_insert_eq. split; [done|].
  split_and!.
  - apply list_lookup_insert_eq. lia.
  - done.
  - done.
  - by rewrite length_insert.
  - intros j Hj. by apply list_lookup_insert_ne.
  - intros n' Hn'. by rewrite lookup_insert_ne.
  - rewrite dom_insert_L. apply elem_of_dom_2 in Hl.
    apply subseteq_union_1_L. by apply singleton_subseteq_l.
Qed.
End operations.

(** ** Concurrent add-task requests under the mutex *)

Section concurrent_facts.
Context `{!GoRuntime}.
Implicit Types (st : store) (cfg : config) (p q : pc) (gs : list pc).

(** A goroutine run alone goes through its six statements and does what
    the handler's case does in one step. *)
Lemma goroutine_alone st n b t :
  Decode b zero = Some t →
  (λ cfg, (shared cfg, goroutines cfg)) <$>
    run (Config st false [AtDecode n b]) [0; 0; 0; 0; 0; 0]
  = (λ '(st', resp), (st', [Done resp])) <$> AppendTask st n b.
Proof.
  intros Hd. unfold AppendTask. simpl. unfold schedule. simpl. rewrite Hd. simpl.
  unfold schedule. simpl.
  by destruct (append (heap st) (default nil_slice (taskLists st !! n)) [t]).
Qed.

Lemma concat_fmap_insert (f : pc → list Task) gs i p p' :
  gs !! i = Some p →
  ∃ rest, concat (f <$> gs) ≡ₚ f p ++ rest ∧
          concat (f <$> <[i := p']> gs) ≡ₚ f p' ++ rest.
Proof.
  intros Hi.
  exists (concat (f <$> take i gs) ++ concat (f <$> drop (S i) gs)). split.
  - rewrite <-(take_drop_middle gs i p Hi) at 1.
    rewrite fmap_app, concat_app. simpl.
    by rewrite (assoc_L (++)), (comm (++) _ (f p)), <-(assoc_L (++)).
  - rewrite insert_take_drop by (by eapply lookup_lt_Some).
    rewrite fmap_app, concat_app. simpl.
    by rewrite (assoc_L (++)), (comm (++) _ (f p')), <-(assoc_L (++)).
Qed.

Lemma lookup_insert_cases gs i p' j q :
  <[i := p']> gs !! j = Some q →
  (j = i ∧ q = p') ∨ (j ≠ i ∧ gs !! j = Some q).
Proof.
  rewrite list_lookup_insert_Some. intros [(-> & -> & _)|[Hne Hj]]; [by left|].
  right. split; [congruence|done].
Qed.

Lemma inflight_ok_outside n st p : in_critical_section p = false → inflight_ok n st p.
Proof. by destruct p. Qed.

(** *** Mutual exclusion along the steps *)
Lemma exclusive_others gs i p j q :
  exclusive gs → gs !! i = Some p → in_critical_section p = true →
  gs !! j = Some q → j ≠ i → in_critical_section q = false.
Proof.
  intros Hex Hi Hp Hj Hne. destruct (in_critical_section q) eqn:Hq; [|done].
  destruct Hne. by eapply Hex.
Qed.

Lemma exclusive_same gs i p p' :
  gs !! i = Some p → in_critical_section p' = in_critical_section p →
  exclusive gs → exclusive (<[i := p']> gs).
Proof.
  intros Hi Hcs Hex j k q1 q2 Hj Hk H1 H2.
  apply lookup_insert_cases in Hj as [[-> ->]|[? Hj]];
    apply lookup_insert_cases in Hk as [[-> ->]|[? Hk]]; [done|..].
  - rewrite Hcs in H1. by eapply Hex.
  - rewrite Hcs in H2. by eapply Hex.
  - by eapply Hex.
Qed.

Lemma occupied_same gs i p p' :
  gs !! i = Some p → in_critical_section p' = in_critical_section p →
  occupied (<[i := p']> gs) ↔ occupied gs.
Proof.
  intros Hi Hcs. split.
  - intros (j & q & Hj & Hq).
    apply lookup_insert_cases in Hj as [[-> ->]|[? Hj]].
    + exists i, p. by rewrite <-Hcs.
    + by exists j, q.
  - intros (j & q & Hj & Hq). destruct (decide (j = i)) as [->|Hne].
    + exists i, p'. rewrite list_lookup_insert_eq by (by eapply lookup_lt_Some).
      split; [done|]. rewrite Hcs. congruence.
    + exists j, q. by rewrite list_lookup_insert_ne.
Qed.

Lemma exclusive_enter gs i p' :
  ¬ occupied gs → exclusive (<[i := p']> gs).
Proof.
  intros Hfree j k q1 q2 Hj Hk H1 H2.
  apply lookup_insert_cases in Hj as [[-> ->]|[? Hj]];
    apply lookup_insert_cases in Hk as [[-> ->]|[? Hk]]; [done|..];
    destruct Hfree; by eexists _, _.
Qed.

Lemma occupied_leave gs i p p' :
  exclusive gs → gs !! i = Some p → in_critical_section p = true →
  in_critical_section p' = false → ¬ occupied (<[i := p']> gs).
Proof.
  intros Hex Hi Hp Hp' (j & q & Hj & Hq).
  apply lookup_insert_cases in Hj as [[-> ->]|[Hne Hj]]; [congruence|].
  by rewrite (exclusive_others gs i p j q) in Hq.
Qed.

(** While one goroutine is in its critical section the others hold no
    slice of their own. *)
Lemma inflight_ok_others n st st' gs i p :
  exclusive gs → gs !! i = Some p → in_critical_section p = true →
  ∀ p', inflight_ok n st' p' → Forall (inflight_ok n st') (<[i := p']> gs).
Proof.
  intros Hex Hi Hp p' Hp'. apply Forall_lookup. intros j q Hj.
  apply lookup_insert_cases in Hj as [[-> ->]|[Hne Hj]]; [done|].
  apply inflight_ok_outside. exact (exclusive_others gs i p j q Hex Hi Hp Hj Hne).
Qed.

(** *** The invariant along the steps *)

(** A statement that touches neither the store nor the mutex. *)
Lemma inv_step_quiet n l0 ts st locked gs i p p' :
  conc_inv n l0 ts (Config st locked gs) → gs !! i = Some p →
  in_critical_section p' = in_critical_section p → pending p' = pending p →
  serves n p' → inflight_ok n st p' →
  conc_inv n l0 ts (Config st locked (<[i := p']> gs)).
Proof.
  intros (Hinv & Hsv & Hfl & Hex & Hmu & added & Hl & Hperm) Hi Hcs Hpd Hs Hf.
  simpl in *. split_and!; simpl.
  - done.
  - by apply Forall_insert.
  - by apply Forall_insert.
  - by eapply exclusive_same.
  - rewrite Hmu. symmetry. by eapply occupied_same.
  - exists added. split; [done|].
    destruct (concat_fmap_insert pending gs i p p' Hi) as (rest & H1 & H2).
    rewrite H2, Hpd, <-H1. done.
Qed.

(** [mu.Lock()]. *)
Lemma inv_step_lock n l0 ts st gs i t :
  conc_inv n l0 ts (Config st false gs) → gs !! i = Some (AtLock n t) →
  conc_inv n l0 ts (Config st true (<[i := AtAppend n t]> gs)).
Proof.
  intros (Hinv & Hsv & Hfl & Hex & Hmu & added & Hl & Hperm) Hi.
  simpl in *.
  assert (¬ occupied gs) as Hfree by (rewrite <-Hmu; done).
  split_and!; simpl.
  - done.
  - by apply Forall_insert.
  - by apply Forall_insert.
  - by apply exclusive_enter.
  - split; [|done]. intros _. exists i, (AtAppend n t).
    by rewrite list_lookup_insert_eq by (by eapply lookup_lt_Some).
  - exists added. split; [done|].
    destruct (concat_fmap_insert pending gs i _ (AtAppend n t) Hi)
      as (rest & H1 & H2).
    rewrite H2. simpl in *. by rewrite <-H1.
Qed.

(** The deferred [mu.Unlock()]. *)
Lemma inv_step_unlock n l0 ts st gs i resp :
  conc_inv n l0 ts (Config st true gs) → gs !! i = Some (AtUnlock resp) →
  conc_inv n l0 ts (Config st false (<[i := Done resp]> gs)).
Proof.
  intros (Hinv & Hsv & Hfl & Hex & Hmu & added & Hl & Hperm) Hi.
  simpl in *.
  assert (¬ occupied (<[i := Done resp]> gs)) as Hfree
    by (by eapply occupied_leave).
  split_and!; simpl.
  - done.
  - by apply Forall_insert.
  - by apply Forall_insert.
  - intros j k q1 q2 Hj Hk H1 H2. destruct Hfree. by exists j, q1.
  - split; [done|]. intros Hocc. by destruct Hfree.
  - exists added. split; [done|].
    destruct (concat_fmap_insert pending gs i _ (Done resp) Hi)
      as (rest & H1 & H2).
    rewrite H2. simpl in *. by rewrite <-H1.
Qed.

(** The right-hand side of line 97: [append] writes into the heap, and
    no list reads differently for it. *)
Lemma append_unseen st n t :
  store_inv st →
  let '(h, s) := append (heap st) (default nil_slice (taskLists st !! n)) [t] in
  store_inv (Store h (taskLists st)) ∧
  view (Store h (taskLists st)) = view st ∧
  inflight_ok n (Store h (taskLists st)) (AtAssign n t s).
Proof.
  intros [Hok He]. pose proof Hok as [Hoks Hdisj].
  destruct (taskLists st !! n) as [s0|] eqn:Hs0;
    cbn [default from_option id].
  - pose proof (append_spec (heap st) s0 [t] (Hoks _ _ Hs0)) as Happ.
    destruct (append (heap st) s0 [t]) as [h s].
    destruct Happ as (Hfr & Hok' & Hel & Hold & _ & Hbase & _).
    destruct (lists_heap_change (heap st) h (taskLists st) (base s0) Hok Hfr)
      as [Hok2 Hsnap].
    { intros n1 s1 Hn1 Hb. destruct (decide (n1 = n)) as [->|Hne];
        [by simplify_eq|]. by destruct (Hdisj n1 n s1 s0). }
    split_and!; [by split|done|]. simpl. split_and!; [done| |].
    + unfold view. simpl. rewrite Hsnap, snapshot_lookup, Hs0. simpl. done.
    + intros n2 s2 Hne Hn2. destruct Hbase as [-> | ->]; [by eapply Hdisj|].
      intros Heq. pose proof (slice_ok_base_lt _ s2 _ (Hoks _ _ Hn2) Heq). lia.
  - pose proof (append_nil_spec (heap st) [t]) as Happ.
    destruct (append (heap st) nil_slice [t]) as [h s].
    destruct Happ as (Hfr & Hok' & Hel & Hbase); [done|].
    destruct (lists_heap_change (heap st) h (taskLists st) None Hok Hfr)
      as [Hok2 Hsnap].
    { intros n1 s1 Hn1 Hb. destruct (Hoks _ _ Hn1) as (a & ? & ? & _). congruence. }
    split_and!; [by split|done|]. simpl. split_and!; [done| |].
    + unfold view. simpl. rewrite Hsnap, snapshot_lookup, Hs0. simpl. done.
    + intros n2 s2 Hne Hn2. rewrite Hbase.
      intros Heq. pose proof (slice_ok_base_lt _ s2 _ (Hoks _ _ Hn2) Heq). lia.
Qed.

Lemma inv_step_append n l0 ts st locked gs i t h s :
  conc_inv n l0 ts (Config st locked gs) → gs !! i = Some (AtAppend n t) →
  append (heap st) (default nil_slice (taskLists st !! n)) [t] = (h, s) →
  conc_inv n l0 ts (Config (Store h (taskLists st)) locked
                           (<[i := AtAssign n t s]> gs)).
Proof.
  intros (Hinv & Hsv & Hfl & Hex & Hmu & added & Hl & Hperm) Hi Happ.
  simpl in *.
  pose proof (append_unseen st n t Hinv) as Hun. rewrite Happ in Hun.
  destruct Hun as (Hinv' & Hview & Hin).
  split_and!; simpl.
  - done.
  - by apply Forall_insert.
  - by eapply inflight_ok_others.
  - by eapply exclusive_same.
  - rewrite Hmu. symmetry. by eapply occupied_same.
  - exists added. rewrite Hview. split; [done|].
    destruct (concat_fmap_insert pending gs i _ (AtAssign n t s) Hi)
      as (rest & H1 & H2).
    rewrite H2. simpl in *. by rewrite <-H1.
Qed.

(** The assignment of line 97: the list is the old one with the task at
    its end. *)
Lemma inv_step_assign n l0 ts st locked gs i t s :
  n ≠ "" →
  conc_inv n l0 ts (Config st locked gs) → gs !! i = Some (AtAssign n t s) →
  conc_inv n l0 ts (Config (Store (heap st) (<[n := s]> (taskLists st))) locked
                           (<[i := AtWrite n t]> gs)).
Proof.
  intros Hn (Hinv & Hsv & Hfl & Hex & Hmu & added & Hl & Hperm) Hi.
  simpl in *.
  pose proof (Forall_lookup_1 _ _ _ _ Hfl Hi) as (Hoks & Hel & Hown).
  destruct Hinv as [Hok He]. pose proof Hok as [Hoks0 _].
  destruct (lists_assign (heap st) (heap st) (taskLists st) n s None Hok)
    as [Hok' Hsnap]; [apply frames_refl| |done|].
  { intros n2 s2 Hne Hn2. split; [|by eapply Hown].
    destruct (Hoks0 _ _ Hn2) as (a & ? & ? & _). congruence. }
  split_and!; simpl.
  - split; simpl; [done|]. by rewrite lookup_insert_ne.
  - by apply Forall_insert.
  - by eapply inflight_ok_others.
  - by eapply exclusive_same.
  - rewrite Hmu. symmetry. by eapply occupied_same.
  - exists (added ++ [t]). unfold view at 1. simpl.
    rewrite Hsnap, lookup_insert_eq. simpl. rewrite Hel, Hl.
    split; [by rewrite (assoc_L (++))|].
    destruct (concat_fmap_insert pending gs i _ (AtWrite n t) Hi)
      as (rest & H1 & H2).
    rewrite H2. simpl in *. rewrite <-Hperm, H1. simpl.
    by rewrite <-(assoc_L (++)).
Qed.

(** Every step of every goroutine keeps the invariant. *)
Lemma conc_inv_schedule n l0 ts cfg i cfg' :
  n ≠ "" → conc_inv n l0 ts cfg → schedule cfg i = Some cfg' →
  conc_inv n l0 ts cfg'.
Proof.
  intros Hn Hinv Hstep. destruct cfg as [st locked gs].
  unfold schedule in Hstep. simpl in Hstep.
  destruct (gs !! i) as [p|] eqn:Hi; [|done]. simpl in Hstep.
  pose proof Hinv as (_ & Hsv & _). simpl in Hsv.
  pose proof (Forall_lookup_1 _ _ _ _ Hsv Hi) as Hp.
  destruct p as [m b|m t|m t|m t s|m t|resp|resp]; simpl in Hstep, Hp; subst.
  - destruct (Decode b zero) as [t|] eqn:Hd; simplify_eq/=.
    + eapply inv_step_quiet; [done..| |done|done]. simpl. by rewrite Hd.
    + eapply inv_step_quiet; [done..| |done|done]. simpl. by rewrite Hd.
  - destruct locked; simplify_eq/=. by apply inv_step_lock.
  - destruct (append (heap st) (default nil_slice (taskLists st !! n)) [t])
      as [h s] eqn:Happ. simplify_eq/=. by apply inv_step_append.
  - simplify_eq/=. by apply inv_step_assign.
  - simplify_eq/=. eapply inv_step_quiet; done.
  - destruct locked; simplify_eq/=. by apply inv_step_unlock.
  - done.
Qed.

Lemma conc_inv_run n l0 ts cfg sched cfg' :
  n ≠ "" → conc_inv n l0 ts cfg → run cfg sched = Some cfg' →
  conc_inv n l0 ts cfg'.
Proof.
  intros Hn. revert cfg. induction sched as [|i sched IH]; intros cfg Hinv Hrun;
    simpl in Hrun; [by simplify_eq|].
  destruct (schedule cfg i) as [cfg1|] eqn:Hs; [|done]. simpl in Hrun.
  eapply IH; [|done]. by eapply conc_inv_schedule.
Qed.

(** The invariant holds when the requests arrive. *)
Lemma conc_inv_arrivals st n bodies :
  store_inv st →
  conc_inv n (default [] (view st !! n)) (omap (λ b, Decode b zero) bodies)
           (arrivals st n bodies).
Proof.
  intros Hinv. unfold arrivals. split_and!; simpl.
  - done.
  - apply Forall_fmap, Forall_true. done.
  - apply Forall_fmap, Forall_true. done.
  - intros i j p q Hi Hj Hp.
    apply list_lookup_fmap_Some in Hi as (b & -> & _). done.
  - split; [done|]. intros (i & p & Hi & Hp).
    apply list_lookup_fmap_Some in Hi as (b & -> & _). done.
  - exists []. split; [by rewrite (right_id_L [] (++))|]. simpl.
    induction bodies as [|b bodies IH]; [done|]. simpl.
    destruct (Decode b zero); simpl; by rewrite IH.
Qed.

(** *** No deadlock: every reachable configuration can be run to the end *)
Lemma goroutine_step_enabled st locked p :
  is_done p = false →
  (in_critical_section p = true → locked = true) →
  (in_critical_section p = false → locked = false) →
  ∃ st' locked' p', goroutine_step st locked p = Some (st', locked', p') ∧
                    steps_left p' < steps_left p.
Proof.
  intros Hd Hin Hout. destruct p as [m b|m t|m t|m t s|m t|resp|resp]; simpl in *.
  - destruct (Decode b zero); eexists _, _, _; (split; [done|simpl; lia]).
  - rewrite Hout by done. eexists _, _, _. split; [done|simpl; lia].
  - destruct (append _ _ _). eexists _, _, _. split; [done|simpl; lia].
  - eexists _, _, _. split; [done|simpl; lia].
  - eexists _, _, _. split; [done|simpl; lia].
  - rewrite Hin by done. eexists _, _, _. split; [done|simpl; lia].
  - done.
Qed.

Lemma steps_left_insert gs i p p' :
  gs !! i = Some p → steps_left p' < steps_left p →
  sum_list_with steps_left (<[i := p']> gs) < sum_list_with steps_left gs.
Proof.
  intros Hi Hlt. rewrite <-(take_drop_middle gs i p Hi) at 2.
  rewrite insert_take_drop by (by eapply lookup_lt_Some).
  rewrite !sum_list_with_app. simpl. lia.
Qed.

Lemma conc_inv_progress n l0 ts cfg :
  conc_inv n l0 ts cfg → ¬ finished cfg →
  ∃ i cfg', schedule cfg i = Some cfg' ∧
            sum_list_with steps_left (goroutines cfg')
            < sum_list_with steps_left (goroutines cfg).
Proof.
  intros (_ & _ & _ & Hex & Hmu & _) Hnf. destruct cfg as [st locked gs].
  simpl in *. unfold finished in Hnf. simpl in Hnf.
  apply not_Forall_Exists in Hnf; [|apply _].
  apply Exists_exists in Hnf as (p0 & Hp0 & Hnd).
  apply list_elem_of_lookup in Hp0 as [i0 Hi0].
  apply not_true_is_false in Hnd.
  assert (∃ i p, gs !! i = Some p ∧ is_done p = false ∧
            (in_critical_section p = true → locked = true) ∧
            (in_critical_section p = false → locked = false))
    as (i & p & Hi & Hd & Hin & Hout).
  { destruct locked.
    - destruct (proj1 Hmu eq_refl) as (i & p & Hi & Hp).
      exists i, p. split_and!; [done| |done|congruence]. by destruct p.
    - exists i0, p0. split_and!; [done|done| |done].
      intros Hp. apply Hmu. by exists i0, p0. }
  destruct (goroutine_step_enabled st locked p Hd Hin Hout)
    as (st' & locked' & p' & Hstep & Hlt).
  exists i. eexists. unfold schedule. simpl. rewrite Hi. simpl. rewrite Hstep. simpl.
  split; [done|]. simpl. by eapply steps_left_insert.
Qed.

Lemma conc_inv_completes n l0 ts cfg :
  n ≠ "" → conc_inv n l0 ts cfg →
  ∃ sched cfg', run cfg sched = Some cfg' ∧ finished cfg'.
Proof.
  intros Hn.
  remember (sum_list_with steps_left (goroutines cfg)) as k eqn:Hk.
  revert cfg Hk. induction (lt_wf k) as [k _ IH]. intros cfg -> Hinv.
  destruct (decide (finished cfg)) as [Hf|Hnf].
  { exists [], cfg. done. }
  destruct (conc_inv_progress n l0 ts cfg Hinv Hnf) as (i & cfg1 & Hs & Hlt).
  destruct (IH _ Hlt cfg1 eq_refl) as (sched & cfg' & Hrun & Hfin).
  { by eapply conc_inv_schedule. }
  exists (i :: sched), cfg'. simpl. rewrite Hs. done.
Qed.

Lemma finished_pending gs :
  Forall (λ p, is_done p = true) gs → concat (pending <$> gs) = [].
Proof.
  induction 1 as [|p gs Hp _ IH]; [done|]. csimpl. rewrite IH.
  by destruct p.
Qed.

Lemma omap_Decode bodies ts :
  Forall2 (λ b t, Decode b zero = Some t) bodies ts →
  omap (λ b, Decode b zero) bodies = ts.
Proof. induction 1 as [|b t bodies ts Hd _ IH]; csimpl; [done|]. by rewrite Hd, IH. Qed.

(** C8.  N add-task requests for one list are served by N goroutines
    whose statements interleave in any order, each taking the mutex
    before it touches the map and releasing it when it returns.  In every
    configuration they can reach, at most one goroutine is between
    [mu.Lock()] and [mu.Unlock()], and it is the one holding the mutex;
    the goroutines can always be run to the end (no deadlock); and when
    all have returned, the list is what it was at the start followed by
    the N tasks in some order, each exactly once: N more tasks, none lost
    and none duplicated, so exactly N tasks when the list was empty or did
    not exist. *)
Theorem C8_concurrent_appends st n bodies ts sched cfg :
  store_inv st → n ≠ "" →
  Forall2 (λ b t, Decode b zero = Some t) bodies ts →
  run (arrivals st n bodies) sched = Some cfg →
  exclusive (goroutines cfg) ∧
  (mu cfg = true ↔ occupied (goroutines cfg)) ∧
  (∃ sched' cfg', run cfg sched' = Some cfg' ∧ finished cfg') ∧
  (finished cfg →
   ∃ added,
     default [] (view (shared cfg) !! n) = default [] (view st !! n) ++ added ∧
     added ≡ₚ ts ∧
     length (default [] (view (shared cfg) !! n))
     = length (default [] (view st !! n)) + length bodies ∧
     (default [] (view st !! n) = [] →
      default [] (view (shared cfg) !! n) ≡ₚ ts ∧
      length (default [] (view (shared cfg) !! n)) = length bodies)).
Proof.
  intros Hinv Hn Hd Hrun.
  pose proof (conc_inv_arrivals st n bodies Hinv) as Hinv0.
  rewrite (omap_Decode bodies ts Hd) in Hinv0.
  pose proof (conc_inv_run n _ ts _ sched cfg Hn Hinv0 Hrun) as Hinv1.
  pose proof Hinv1 as (_ & _ & _ & Hex & Hmu & added & Hl & Hperm).
  split_and!; [done|done|by eapply conc_inv_completes|].
  intros Hfin. exists added.
  rewrite (finished_pending _ Hfin), (right_id_L [] (++)) in Hperm.
  assert (length ts = length bodies) as Hlen
    by (symmetry; by eapply Forall2_length).
  split_and!; [done|done| |].
  - by rewrite Hl, length_app, Hperm, Hlen.
  - intros Hnil. rewrite Hl, Hnil. simpl. by rewrite Hperm.
Qed.
End concurrent_facts.

(** ** The console variant *)

Section console_facts.
Context `{!GoRuntime} `{!Console.MapRange}.
Implicit Types (st : Console.state).

(** Printing changes the output only. *)
Lemma Console_print_names st names :
  let st' := foldl (λ st name, Console.Println ("- " +:+ name) st) st names in
  Console.heap st' = Console.heap st ∧
  Console.taskLists st' = Console.taskLists st ∧
  Console.stdin st' = Console.stdin st.
Proof.
  revert st. induction names as [|name names IH]; intros st; simpl; [done|].
  destruct (IH (Console.Println ("- " +:+ name) st)) as (-> & -> & ->). done.
Qed.

(** [createTaskList] on a name that exists: refused, nothing changes. *)
Lemma Console_createTaskList_exists st name rest :
  Console.stdin st = name :: rest →
  is_Some (Console.taskLists st !! name) →
  Console.createTaskList st
  = Console.State (Console.heap st) (Console.taskLists st) rest
      (Console.stdout st ++ ["Enter name of new task list: "]
                         ++ ["Task list already exists." +:+ Console.newline]).
Proof.
  intros Hin [s Hs]. unfold Console.createTaskList, Console.Scan. simpl.
  rewrite Hin. simpl. rewrite Hs. unfold Console.Println, Console.Print. simpl.
  by rewrite <-(assoc_L (++)).
Qed.

(** [createTaskList] on a new name: the list exists afterwards, empty. *)
Lemma Console_createTaskList_new st name rest :
  Console.state_inv st →
  Console.stdin st = name :: rest →
  Console.taskLists st !! name = None →
  Console.state_inv (Console.createTaskList st) ∧
  Console.view (Console.createTaskList st) = <[name := []]> (Console.view st) ∧
  Console.stdin (Console.createTaskList st) = rest.
Proof.
  intros Hok Hin Hnone.
  pose proof (empty_literal_spec (Console.heap st)) as Hlit.
  unfold Console.createTaskList, Console.Scan, Console.Println, Console.Print,
    Console.state_inv, Console.view, empty_literal in *.
  simpl in *. rewrite Hin. simpl. rewrite Hnone. simpl.
  destruct Hlit as (Hfr & Hoks & Hel & Hbase).
  destruct (lists_update (Console.heap st) _ (Console.taskLists st) name
              (Slice (Some (length (Console.heap st))) 0 0 0) None Hok Hfr)
    as [Hok' Hsnap]; [|done|by right|].
  { intros n2 s2 _ Hn2 Hb. destruct Hok as [Hok _].
    destruct (Hok _ _ Hn2) as (b & ? & ? & _). congruence. }
  split_and!; [done| |done]. by rewrite Hsnap.
Qed.

(** [addTasks] on a name that does not exist: refused, the map and the
    heap stay as they are.  This is the check that the HTTP handler for
    [POST /lists/{name}/tasks] does not make. *)
Lemma Console_addTasks_absent st name rest :
  Console.stdin st = name :: rest →
  Console.taskLists st !! name = None →
  Console.heap (Console.addTasks st) = Console.heap st ∧
  Console.taskLists (Console.addTasks st) = Console.taskLists st ∧
  (Console.taskLists st ≠ ∅ →
   last (Console.stdout (Console.addTasks st))
   = Some ("Task list does not exist." +:+ Console.newline)).
Proof.
  intros Hin Hnone. unfold Console.addTasks. case_decide as Hsz.
  { split_and!; [done|done|]. intros Hne. by apply map_size_empty_iff in Hsz. }
  set (st1 := Console.Println "Available task lists:" st).
  pose proof (Console_print_names st1 (fst <$> Console.range_order st1))
    as Hnames. simpl in Hnames.
  set (st2 := foldl _ st1 _) in *. destruct Hnames as (Hh & Hm & Hi).
  unfold Console.Scan. simpl. rewrite Hi. simpl. rewrite Hin, Hm. simpl.
  rewrite Hnone. simpl. rewrite ?Hh, ?Hm. split_and!; [done|done|].
  intros _. by rewrite last_snoc.
Qed.

(** [addTasks] on a list that exists: the task goes to its end. *)
Lemma Console_addTasks_exists st name task rest l :
  Console.state_inv st →
  Console.stdin st = name :: task :: rest →
  Console.view st !! name = Some l →
  Console.state_inv (Console.addTasks st) ∧
  Console.view (Console.addTasks st) = <[name := l ++ [task]]> (Console.view st).
Proof.
  intros Hok Hin Hl. unfold Console.view in Hl. rewrite snapshot_lookup in Hl.
  destruct (Console.taskLists st !! name) as [s|] eqn:Hs; simplify_eq/=.
  unfold Console.addTasks. case_decide as Hsz.
  { apply map_size_empty_iff in Hsz. rewrite Hsz in Hs. done. }
  set (st1 := Console.Println "Available task lists:" st).
  pose proof (Console_print_names st1 (fst <$> Console.range_order st1))
    as Hnames. simpl in Hnames.
  set (st2 := foldl _ st1 _) in *. destruct Hnames as (Hh & Hm & Hi).
  unfold Console.Scan. simpl. rewrite Hi. simpl. rewrite Hin, Hm. simpl.
  rewrite Hs. simpl. rewrite ?Hh, ?Hm.
  pose proof Hok as [Hoks _].
  pose proof (append_spec (Console.heap st) s [task] (Hoks _ _ Hs)) as Happ.
  destruct (append (Console.heap st) s [task]) as [h s'].
  destruct Happ as (Hfr & Hok' & Hel & _ & _ & Hbase & _).
  destruct (lists_update (Console.heap st) h (Console.taskLists st) name s' (base s)
              Hok Hfr) as [Hok2 Hsnap]; [by eapply lists_ok_others|done|done|].
  split; simpl; [done|]. unfold Console.view. simpl. by rewrite Hsnap, Hel.
Qed.
End console_facts.

(** ** The theorems at work

    Each theorem above that has hypotheses is applied here to the store
    with the list "work" of two tasks. *)

Lemma after_inv cs : store_inv (after cs).
Proof.
  unfold after.
  destruct (@serve_post doubling empty_store cs store_inv_empty)
    as (st & resps & -> & Hinv & _).
  exact Hinv.
Qed.

(** Deleting index 5 of the two tasks: out of range, the list unchanged. *)
Lemma C2_index_validation_witness :
  @handleListOperations doubling (after work_calls)
    (Request MethodDelete "/lists/work/tasks/5" Malformed)
  = Some (after work_calls, http_Error "Task index out of range" StatusBadRequest).
Proof.
  refine (proj1 (proj2 (@C2_index_validation doubling (after work_calls) _
                          "work" "5" [buy_milk; call_bob]
                          (after_inv _) _ _ _)) 5%Z _ _).
  - right. reflexivity.
  - reflexivity.
  - vm_compute. reflexivity.
  - vm_compute. reflexivity.
  - simpl. lia.
Defined.

(** The index 9223372036854775808 is greater than the number of tasks of
    "work", which is 2, and a request to delete the task at that index is
    refused as one with an invalid index, not as one with an index out of
    range: the numeral is beyond the 64 bits of an [int], so that
    [strconv.Atoi] returns an error (main.go, lines 125-128). *)
Lemma C2_index_beyond_int_counterexample :
  view (after work_calls) !! "work" = Some [buy_milk; call_bob] ∧
  digits_value 0 "9223372036854775808" = Some (2 ^ 63)%Z ∧
  (Z.of_nat (length [buy_milk; call_bob]) < 2 ^ 63)%Z ∧
  @handleListOperations doubling (after work_calls)
    (Request MethodDelete "/lists/work/tasks/9223372036854775808" Malformed)
  = Some (after work_calls, http_Error "Invalid task index" StatusBadRequest) ∧
  @handleListOperations doubling (after work_calls)
    (Request MethodDelete "/lists/work/tasks/9223372036854775808" Malformed)
  ≠ Some (after work_calls, http_Error "Task index out of range" StatusBadRequest).
Proof.
  split_and!.
  - vm_compute. reflexivity.
  - vm_compute. reflexivity.
  - simpl. lia.
  - vm_compute. reflexivity.
  - vm_compute. discriminate.
Qed.

(** "work" is created, two tasks are added, and "work" is created again. *)
Lemma C3_create_at_most_once_witness :
  ∃ st2 resps,
    @serve doubling (after [post "/lists/work" Malformed]) (tail work_calls)
    = Some (st2, resps) ∧
    @handleListOperations doubling st2 (Request MethodPost "/lists/work" Malformed)
    = Some (st2, http_Error "Task list already exists" StatusConflict).
Proof.
  apply (@C3_create_at_most_once doubling empty_store
           (Request MethodPost "/lists/work" Malformed)
           (after [post "/lists/work" Malformed])
           (writeJSON (JMessage [ ("list", "work"); ("message", "Task list created") ]))).
  - apply store_inv_empty.
  - reflexivity.
  - reflexivity.
  - vm_compute. reflexivity.
  - reflexivity.
Defined.

(** Deleting the first of the two tasks leaves the second one, at index 1. *)
Lemma C4_delete_closes_the_gap_witness :
  ∃ st', @handleListOperations doubling (after work_calls)
           (Request MethodDelete "/lists/work/tasks/1" Malformed)
         = Some (st', writeJSON (JMessage [ ("message", "Task deleted") ])) ∧
         view st' !! "work" = Some [call_bob].
Proof.
  destruct (@C4_delete_closes_the_gap doubling (after work_calls)
              (Request MethodDelete "/lists/work/tasks/1" Malformed)
              "work" "1" 1 [buy_milk; call_bob])
    as (st' & l' & Hr & Hv & _ & Hl & _).
  - apply after_inv.
  - reflexivity.
  - reflexivity.
  - vm_compute. reflexivity.
  - vm_compute. reflexivity.
  - simpl. lia.
  - exists st'. split; [exact Hr|]. rewrite Hv, Hl. reflexivity.
Defined.

(** Toggling the first task twice. *)
Lemma C5_toggle_twice_witness :
  ∃ st1 st2 resp1 resp2,
    @handleListOperations doubling (after work_calls)
      (Request MethodPut "/lists/work/tasks/1" Malformed) = Some (st1, resp1) ∧
    @handleListOperations doubling st1
      (Request MethodPut "/lists/work/tasks/1" Malformed) = Some (st2, resp2) ∧
    view st2 !! "work" = Some [buy_milk; call_bob].
Proof.
  destruct (@C5_toggle_twice doubling (after work_calls)
              (Request MethodPut "/lists/work/tasks/1" Malformed)
              "work" "1" 1 [buy_milk; call_bob])
    as (st1 & st2 & resp1 & resp2 & l1 & t & t1 & Hr1 & _ & Hr2 & _ & _ & _ & _ & _ & Hv).
  - apply after_inv.
  - reflexivity.
  - reflexivity.
  - vm_compute. reflexivity.
  - vm_compute. reflexivity.
  - simpl. lia.
  - exists st1, st2, resp1, resp2. split; [exact Hr1|]. split; [exact Hr2|exact Hv].
Defined.


(** A body with an empty description and no status. *)
Lemma C7_status_defaults_to_false_witness :
  ∃ st' resp l t,
    @handleListOperations doubling (after work_calls)
      (Request MethodPost "/lists/work/tasks" (TaskJSON (Some "") None))
    = Some (st', resp) ∧ code resp = StatusOK ∧
    view st' !! "work" = Some (l ++ [t]) ∧
    Description t = "" ∧ Status t = false.
Proof.
  destruct (@C7_status_defaults_to_false doubling (after work_calls)
              (Request MethodPost "/lists/work/tasks" (TaskJSON (Some "") None))
              "work" (Some "") None)
    as (st' & resp & l & t & Hr & Hc & Hv & Hd & Hs & _).
  - apply after_inv.
  - discriminate.
  - reflexivity.
  - reflexivity.
  - reflexivity.
  - exists st', resp, l, t. repeat split; assumption.
Defined.

(** Three goroutines add to "work" in the order b, c, a: five tasks. *)
Lemma C8_concurrent_appends_witness :
  length (default [] (view (shared after_interleaving) !! "work")) = 2 + 3.
Proof.
  destruct (@C8_concurrent_appends doubling (after work_calls) "work"
              three_bodies three_tasks interleaving after_interleaving)
    as (_ & _ & _ & Hfin).
  - apply after_inv.
  - discriminate.
  - repeat constructor.
  - vm_compute. reflexivity.
  - destruct Hfin as (added & _ & _ & Hlen & _).
    + unfold finished. vm_compute. repeat constructor.
    + rewrite Hlen. vm_compute. reflexivity.
Defined.

(** "work" survives deletions, a failed create and an enumeration. *)
Lemma C9_names_are_never_removed_witness :
  ∃ st' resps,
    @serve doubling (after work_calls)
      [ ListOperations (Request MethodDelete "/lists/work/tasks/1" Malformed);
        ListOperations (Request MethodDelete "/lists/work/tasks/1" Malformed);
        post "/lists/work" Malformed;
        Lists (Request MethodGet "/lists" Malformed) ]
    = Some (st', resps) ∧ length resps = 4 ∧ is_Some (taskLists st' !! "work").
Proof.
  apply (@C9_names_are_never_removed doubling (after work_calls)).
  - apply after_inv.
  - vm_compute. eexists. reflexivity.
Defined.

(** Toggling the second task leaves the first one alone. *)
Lemma C10_toggle_frame_witness :
  ∃ st', @handleListOperations doubling (after work_calls)
           (Request MethodPut "/lists/work/tasks/2" Malformed)
         = Some (st', writeJSON (JMessage [ ("message", "Task status toggled") ])) ∧
         view st' !! "work" = Some [buy_milk; mkTask "call bob" true].
Proof.
  destruct (@C10_toggle_frame doubling (after work_calls)
              (Request MethodPut "/lists/work/tasks/2" Malformed)
              "work" "2" 2 [buy_milk; call_bob])
    as (st' & l' & t & t' & Hr & Ht & Hv & Ht' & Hd & Hs & Hlen & Hoth & _).
  - apply after_inv.
  - reflexivity.
  - reflexivity.
  - vm_compute. reflexivity.
  - vm_compute. reflexivity.
  - simpl. lia.
  - exists st'. split; [exact Hr|]. rewrite Hv. f_equal.
    simpl in Ht. injection Ht as <-.
    destruct l' as [|x [|y [|]]]; try discriminate Hlen.
    pose proof (Hoth 0 ltac:(discriminate)) as H0. simpl in H0. injection H0 as ->.
    simpl in Ht'. injection Ht' as ->.
    destruct t' as [d s]. simpl in Hd, Hs. subst. reflexivity.
Defined.

(** ** More on the handlers of the HTTP server *)

Section more_routing.
Context `{!GoRuntime}.
Implicit Types (st : store) (r : request) (l : list Task).

(** The case that serves a request, with the method and the path that
    lead to it. *)
Lemma handleListOperations_route st r :
  (∃ resp, handleListOperations st r = Some (st, resp) ∧
           code resp ∈ [StatusBadRequest; StatusNotFound]) ∨
  ∃ n, n ≠ "" ∧ parts r !! 0 = Some n ∧
    ((Method r = MethodPost ∧ parts r = [n] ∧
      handleListOperations st r = CreateList st n) ∨
     (Method r = MethodGet ∧ parts r = [n; "tasks"] ∧
      handleListOperations st r = GetTasks st n) ∨
     (Method r = MethodPost ∧ parts r = [n; "tasks"] ∧
      handleListOperations st r = AppendTask st n (Body r)) ∨
     (∃ part, Method r = MethodPut ∧ parts r = [n; "tasks"; part] ∧
              handleListOperations st r = ToggleTask st n part) ∨
     (∃ part, Method r = MethodDelete ∧ parts r = [n; "tasks"; part] ∧
              handleListOperations st r = DeleteTask st n part)).
Proof.
  unfold handleListOperations.
  case_decide as H0; [left; eexists; split; [done|repeat constructor]|].
  destruct (parts r) as [|n ps] eqn:Hp; [simpl in H0; exfalso; apply H0; left; lia|].
  simpl. assert (n ≠ "") as Hn by (intros ->; apply H0; by right).
  repeat case_decide; destruct_and?.
  - destruct ps; [|done]. right. exists n. eauto 10.
  - destruct ps as [|? [|]]; simplify_eq/=. right. exists n. eauto 10.
  - destruct ps as [|? [|]]; simplify_eq/=. right. exists n. eauto 10.
  - destruct ps as [|? [|part [|]]]; simplify_eq/=. right. exists n. eauto 15.
  - destruct ps as [|? [|part [|]]]; simplify_eq/=. right. exists n. eauto 15.
  - left. eexists. split; [done|]. repeat constructor.
Qed.

(** What a case can answer, and that it changes the store only when it
    answers 200. *)
Lemma CreateList_outcome st n st' resp :
  CreateList st n = Some (st', resp) →
  code resp ∈ [StatusOK; StatusConflict] ∧ (code resp ≠ StatusOK → st' = st).
Proof.
  unfold CreateList. destruct (taskLists st !! n); intros; simplify_eq/=.
  - split; [repeat constructor|done].
  - destruct (empty_literal (heap st)). simplify_eq/=.
    split; [repeat constructor|done].
Qed.

Lemma GetTasks_outcome st n st' resp :
  GetTasks st n = Some (st', resp) →
  code resp ∈ [StatusOK; StatusNotFound] ∧ st' = st.
Proof.
  unfold GetTasks. destruct (taskLists st !! n); intros; simplify_eq/=;
    (split; [repeat constructor|done]).
Qed.

Lemma AppendTask_outcome st n b st' resp :
  AppendTask st n b = Some (st', resp) →
  code resp ∈ [StatusOK; StatusBadRequest] ∧ (code resp ≠ StatusOK → st' = st).
Proof.
  unfold AppendTask. destruct (Decode b zero); intros; simplify_eq/=.
  - destruct (append _ _ _). simplify_eq/=. split; [repeat constructor|done].
  - split; [repeat constructor|done].
Qed.

Lemma ToggleTask_outcome st n part st' resp :
  ToggleTask st n part = Some (st', resp) →
  code resp ∈ [StatusOK; StatusBadRequest; StatusNotFound] ∧
  (code resp ≠ StatusOK → st' = st).
Proof.
  unfold ToggleTask. intros Hr.
  repeat (case_match || case_decide); simplify_eq/=;
    try (split; [repeat constructor|done]).
  destruct (slice_get _ _ _); simplify_eq/=.
  destruct (slice_set _ _ _ _); simplify_eq/=.
  split; [repeat constructor|done].
Qed.

Lemma DeleteTask_outcome st n part st' resp :
  DeleteTask st n part = Some (st', resp) →
  code resp ∈ [StatusOK; StatusBadRequest; StatusNotFound] ∧
  (code resp ≠ StatusOK → st' = st).
Proof.
  unfold DeleteTask. intros Hr.
  repeat (case_match || case_decide); simplify_eq/=;
    try (split; [repeat constructor|done]).
  destruct (reslice _ 0 _); simplify_eq/=.
  destruct (reslice _ _ _); simplify_eq/=.
  destruct (append _ _ _). simplify_eq/=.
  split; [repeat constructor|done].
Qed.

End more_routing.

Section more_handlers.
Context `{!GoRuntime}.
Implicit Types (st : store) (r : request) (l : list Task).

(** X1.  A request whose method is not POST, PUT or DELETE (a GET, say)
    never changes the store, whatever its path and whatever the store:
    both handlers return the store they were given. *)
Theorem X1_reads_leave_the_store st r :
  Method r ≠ MethodPost → Method r ≠ MethodPut → Method r ≠ MethodDelete →
  (∃ resp, handleLists st r = Some (st, resp)) ∧
  (∃ resp, handleListOperations st r = Some (st, resp)).
Proof.
  intros Hpost Hput Hdel. split.
  - unfold handleLists. case_decide; eauto.
  - destruct (handleListOperations_route st r) as
      [(resp & -> & _)|(n & Hn & _ & [(? & _)|[(_ & _ & ->)|[(? & _)|[(? & ? & _)|(? & ? & _)]]]])];
      try done; [eauto|].
    unfold GetTasks. destruct (taskLists st !! n); eauto.
Qed.




(** X4.  A path whose list name is empty ([/lists/], [/lists//tasks], ...)
    is answered with 400 "List name required" for every method and every
    store, and the store stays as it is. *)
Theorem X4_empty_list_name st r :
  parts r !! 0 = Some "" →
  handleListOperations st r
  = Some (st, http_Error "List name required" StatusBadRequest).
Proof.
  intros Hp. unfold handleListOperations. by rewrite decide_True by (by right).
Qed.

(** X5.  There are no routes but the five: a path of more than three
    parts, a second part that is not "tasks", or a method that the shape of
    the path does not take (DELETE or PUT on a list or on its tasks, GET or
    POST on a task index, anything but POST on a list) is answered with 404
    "Not found", and the store stays as it is. *)
Theorem X5_no_other_route st r n rest :
  parts r = n :: rest → n ≠ "" →
  3 ≤ length rest ∨
  (∃ p, rest !! 0 = Some p ∧ p ≠ "tasks") ∨
  (rest = [] ∧ Method r ≠ MethodPost) ∨
  (length rest = 1 ∧ Method r ≠ MethodGet ∧ Method r ≠ MethodPost) ∨
  (length rest = 2 ∧ Method r ≠ MethodPut ∧ Method r ≠ MethodDelete) →
  handleListOperations st r = Some (st, http_Error "Not found" StatusNotFound).
Proof.
  intros Hp Hn Hcase. unfold handleListOperations. rewrite Hp. simpl.
  rewrite decide_False by (intros [?|[= ?]]; [lia|done]). simpl.
  repeat case_decide; try done; exfalso; destruct_and?;
    destruct rest as [|p1 [|p2 [|p3 rest]]]; simplify_eq/=;
    destruct Hcase as [?|[(p & ? & ?)|[(? & ?)|[(? & ? & ?)|(? & ? & ?)]]]];
    simplify_eq/=; lia.
Qed.

(** X6.  An add-task request whose body cannot be decoded is answered with
    400 "Invalid task data" before the map is looked at: nothing is added
    and no list comes into being, whether the list exists or not. *)
Theorem X6_malformed_body st r n :
  n ≠ "" → Method r = MethodPost → parts r = [n; "tasks"] →
  Body r = Malformed →
  handleListOperations st r
  = Some (st, http_Error "Invalid task data" StatusBadRequest).
Proof.
  intros Hn Hm Hp Hb. rewrite (route_add st r n) by done.
  apply AppendTask_malformed. by rewrite Hb.
Qed.

(** X7.  The checks of a toggle or delete request come in a fixed order.
    An index that is not a number or is below 1 is answered with 400
    "Invalid task index" whatever the store is, also when the list does not
    exist; an index of 1 or more on a list that does not exist is answered
    with 404 "Task list not found", and the store stays as it is. *)
Theorem X7_index_before_existence st r n part :
  n ≠ "" → Method r = MethodPut ∨ Method r = MethodDelete →
  parts r = [n; "tasks"; part] →
  ((∀ index, Atoi part = Some index → (index < 1)%Z) →
   ∀ st0, handleListOperations st0 r
          = Some (st0, http_Error "Invalid task index" StatusBadRequest)) ∧
  (∀ index, Atoi part = Some index → (1 ≤ index)%Z →
            taskLists st !! n = None →
            handleListOperations st r
            = Some (st, http_Error "Task list not found" StatusNotFound)).
Proof.
  intros Hn Hm Hp.
  assert (∀ st0, handleListOperations st0 r = ToggleTask st0 n part ∨
                 handleListOperations st0 r = DeleteTask st0 n part) as Hroute.
  { intros st0. destruct Hm as [Hm|Hm];
      [left; by apply route_toggle|right; by apply route_delete]. }
  split.
  - intros Hi st0. destruct (Hroute st0) as [-> | ->].
    + by apply ToggleTask_invalid.
    + by apply DeleteTask_invalid.
  - intros index Ha Hi Hs. destruct (Hroute st) as [-> | ->].
    + by eapply ToggleTask_not_found.
    + by eapply DeleteTask_not_found.
Qed.

(** X8.  Every answer carries one of the five status codes 200, 400, 404,
    405 and 409, and a call that answers anything but 200 leaves the store
    exactly as it was. *)
Theorem X8_errors_change_nothing st c st' resp :
  handle st c = Some (st', resp) →
  code resp ∈ status_codes ∧ (code resp ≠ StatusOK → st' = st).
Proof.
  assert (∀ cs, cs ⊆ status_codes → code resp ∈ cs → code resp ∈ status_codes)
    as Hsub by (intros cs Hcs ?; by apply Hcs).
  assert (∀ a b, a ∈ status_codes → b ∈ status_codes → [a; b] ⊆ status_codes)
    as H2 by (intros a b ?? x [->|[->|[]%elem_of_nil]%elem_of_cons]%elem_of_cons; done).
  assert (∀ a b c, a ∈ status_codes → b ∈ status_codes → c ∈ status_codes →
                   [a; b; c] ⊆ status_codes) as H3.
  { intros a b c' Ha Hb Hc x [->|Hx]%elem_of_cons; [done|]. exact (H2 b c' Hb Hc x Hx). }
  assert (StatusOK ∈ status_codes) as Hok by repeat constructor.
  assert (StatusBadRequest ∈ status_codes) as Hbad by repeat constructor.
  assert (StatusNotFound ∈ status_codes) as Hnf by repeat constructor.
  assert (StatusConflict ∈ status_codes) as Hcf by repeat constructor.
  destruct c as [r|r]; simpl.
  - unfold handleLists. case_decide; intros; simplify_eq/=;
      (split; [repeat constructor|done]).
  - intros Hr.
    destruct (handleListOperations_route st r) as
      [(resp0 & Hr0 & Hc)|(n & _ & _ &
         [(_ & _ & Hr0)|[(_ & _ & Hr0)|[(_ & _ & Hr0)|
           [(part & _ & _ & Hr0)|(part & _ & _ & Hr0)]]]])];
      rewrite Hr0 in Hr.
    + simplify_eq. split; [|done]. eapply Hsub; [|done]. by apply H2.
    + apply CreateList_outcome in Hr as [Hc ?]. split; [|done].
      eapply Hsub; [|done]. by apply H2.
    + apply GetTasks_outcome in Hr as [Hc ->]. split; [|done].
      eapply Hsub; [|done]. by apply H2.
    + apply AppendTask_outcome in Hr as [Hc ?]. split; [|done].
      eapply Hsub; [|done]. by apply H2.
    + apply ToggleTask_outcome in Hr as [Hc ?]. split; [|done].
      eapply Hsub; [|done]. by apply H3.
    + apply DeleteTask_outcome in Hr as [Hc ?]. split; [|done].
      eapply Hsub; [|done]. by apply H3.
Qed.
End more_handlers.

(** ** Sequences of calls *)

Section more_sequences.
Context `{!GoRuntime}.
Implicit Types (st : store) (r : request) (l : list Task).

(** X9.  From the start of the server, no sequence of calls makes a handler
    panic (no index or slice bound is ever violated): every call is
    answered, and the store that results is well formed, its lists within
    their arrays and no two of them in the same array. *)
Theorem X9_never_panics cs :
  ∃ st resps, serve empty_store cs = Some (st, resps) ∧
              length resps = length cs ∧ store_inv st.
Proof.
  destruct (serve_post empty_store cs store_inv_empty)
    as (st & resps & Hs & Hinv & Hlen & _).
  by exists st, resps.
Qed.

(** The parts of a path hold no slash. *)
Lemma Split_parts_clean s sep p : p ∈ Split s sep → contains sep p = false.
Proof.
  revert p. induction s as [|c s IH]; intros p; simpl.
  - by intros ->%list_elem_of_singleton.
  - case_decide as Hc.
    + intros [->|Hp]%elem_of_cons; [done|]. by apply IH.
    + destruct (Split s sep) as [|q qs] eqn:Hq.
      * intros ->%list_elem_of_singleton. simpl. by rewrite decide_False.
      * intros [->|Hp]%elem_of_cons.
        -- simpl. rewrite decide_False by done. apply IH. by left.
        -- apply IH. by right.
Qed.

(** A call leaves the map as it is or assigns to the first part of its
    path. *)
Lemma handle_assigns st c st' resp :
  handle st c = Some (st', resp) →
  taskLists st' = taskLists st ∨
  ∃ r n s, c = ListOperations r ∧ parts r !! 0 = Some n ∧ n ≠ "" ∧
           taskLists st' = <[n := s]> (taskLists st).
Proof.
  destruct c as [r|r]; simpl.
  - unfold handleLists. case_decide; intros; simplify_eq/=; by left.
  - intros Hr.
    destruct (handleListOperations_route st r) as
      [(resp0 & Hr0 & Hc)|(n & Hn & Hp0 &
         [(_ & _ & Hr0)|[(_ & _ & Hr0)|[(_ & _ & Hr0)|
           [(part & _ & _ & Hr0)|(part & _ & _ & Hr0)]]]])];
      rewrite Hr0 in Hr; [simplify_eq; by left|..].
    + unfold CreateList in Hr. destruct (taskLists st !! n); simplify_eq/=; [by left|].
      destruct (empty_literal (heap st)). simplify_eq/=. right. eauto 10.
    + apply GetTasks_outcome in Hr as [_ ->]. by left.
    + unfold AppendTask in Hr. destruct (Decode _ _); simplify_eq/=; [|by left].
      destruct (append _ _ _). simplify_eq/=. right. eauto 10.
    + unfold ToggleTask in Hr.
      repeat (case_match || case_decide); simplify_eq/=; try by left.
      destruct (slice_get _ _ _); simplify_eq/=.
      destruct (slice_set _ _ _ _); simplify_eq/=. right. eauto 10.
    + unfold DeleteTask in Hr.
      repeat (case_match || case_decide); simplify_eq/=; try by left.
      destruct (reslice _ 0 _); simplify_eq/=.
      destruct (reslice _ _ _); simplify_eq/=.
      destruct (append _ _ _). simplify_eq/=. right. eauto 10.
Qed.

Lemma handle_names_ok st c st' resp :
  names_ok st → handle st c = Some (st', resp) → names_ok st'.
Proof.
  intros Hok Hr k Hk.
  destruct (handle_assigns st c st' resp Hr) as [Heq|(r & n & s & -> & Hp & Hn & Heq)];
    rewrite Heq in Hk; [by apply Hok|].
  destruct (decide (k = n)) as [->|Hne]; [|rewrite lookup_insert_ne in Hk by done; by apply Hok].
  split; [done|]. eapply Split_parts_clean, list_elem_of_lookup_2, Hp.
Qed.

(** X10.  However the lists were created (by a create request or by an add
    request for a name not yet there), the name of every list in the store
    is not empty and holds no slash: it is one part of a path. *)
Theorem X10_list_names cs st resps :
  serve empty_store cs = Some (st, resps) → names_ok st.
Proof.
  assert (∀ st0, names_ok st0 → serve st0 cs = Some (st, resps) → names_ok st)
    as Hgen.
  { revert resps. induction cs as [|c cs IH]; intros resps st0 Hok Hs; simpl in Hs.
    - by simplify_eq.
    - destruct (handle st0 c) as [[st1 resp]|] eqn:Hc; simplify_eq/=.
      destruct (serve st1 cs) as [[st2 resps']|] eqn:Hs'; simplify_eq/=.
      eapply IH; [|done]. by eapply handle_names_ok. }
  apply Hgen. intros n [s Hs]. simpl in Hs. by rewrite lookup_empty in Hs.
Qed.
End more_sequences.

(** ** What an operation changes, and how operations compose *)

Section more_operations.
Context `{!GoRuntime}.
Implicit Types (st : store) (r : request) (l : list Task).

(** X11.  A successful delete changes the one list only: every other list
    reads as before, and the set of list names is the same (the list stays
    in the store even when its last task goes). *)
Theorem X11_delete_frame st r n part index l :
  store_inv st →
  Method r = MethodDelete → parts r = [n; "tasks"; part] →
  Atoi part = Some index → view st !! n = Some l →
  (1 ≤ index ≤ Z.of_nat (length l))%Z →
  ∃ st', handleListOperations st r
         = Some (st', writeJSON (JMessage [ ("message", "Task deleted") ])) ∧
         store_inv st' ∧
         (∀ n', n' ≠ n → view st' !! n' = view st !! n') ∧
         dom (view st') = dom (view st).
Proof.
  intros Hinv Hm Hp Ha Hl Hi.
  assert (n ≠ "") as Hn.
  { eapply store_inv_name; [done|]. apply view_Some in Hl as (s & -> & _). eauto. }
  rewrite (route_delete st r n part) by done.
  destruct (DeleteTask_spec st n part index l) as (st' & -> & Hinv' & Hv); [done..|].
  exists st'. split_and!; [done|done| |].
  - intros n' Hn'. by rewrite Hv, lookup_insert_ne.
  - rewrite Hv, dom_insert_L. apply elem_of_dom_2 in Hl.
    apply subseteq_union_1_L. by apply singleton_subseteq_l.
Qed.



(** X14.  Deleting index 1 as many times as the list has tasks succeeds
    every time and leaves the list empty but still in the store; the other
    lists read as before. *)
Theorem X14_delete_all st r n part l :
  store_inv st →
  Method r = MethodDelete → parts r = [n; "tasks"; part] →
  Atoi part = Some 1%Z → view st !! n = Some l →
  ∃ st' resps,
    serve st (replicate (length l) (ListOperations r)) = Some (st', resps) ∧
    resps = replicate (length l) (writeJSON (JMessage [ ("message", "Task deleted") ])) ∧
    store_inv st' ∧
    view st' = <[n := []]> (view st).
Proof.
  intros Hinv Hm Hp Ha. revert st Hinv.
  destruct (decide (n = "")) as [Hn|Hn].
  { subst n. intros st Hinv Hl. apply view_Some in Hl as (s & Hs & _).
    destruct Hinv as [_ He]. congruence. }
  induction l as [|t l IH]; intros st Hinv Hl; simpl.
  - exists st, []. split_and!; [done..|]. by rewrite insert_id.
  - rewrite (route_delete st r n part) by done.
    destruct (DeleteTask_spec st n part 1 (t :: l)) as (st1 & -> & Hinv1 & Hv1);
      [done|done|done|simpl; lia|]. simpl in Hv1. rewrite drop_0 in Hv1.
    simpl.
    destruct (IH st1 Hinv1) as (st' & resps & -> & -> & Hinv' & Hv');
      [by rewrite Hv1, lookup_insert_eq|].
    exists st'. eexists. split_and!; [done|done|done|].
    by rewrite Hv', Hv1, insert_insert_eq.
Qed.

(** X15.  Adding a task to a list and then deleting the last index gives
    back the store as it read before: the list is what it was, and so is
    every other list. *)
Theorem X15_add_then_delete_last st radd rdel n part t l :
  store_inv st →
  Method radd = MethodPost → parts radd = [n; "tasks"] →
  Decode (Body radd) zero = Some t →
  Method rdel = MethodDelete → parts rdel = [n; "tasks"; part] →
  view st !! n = Some l →
  Atoi part = Some (Z.of_nat (length l) + 1)%Z →
  ∃ st' resps,
    serve st [ListOperations radd; ListOperations rdel] = Some (st', resps) ∧
    code <$> resps = [StatusOK; StatusOK] ∧
    view st' = view st.
Proof.
  intros Hinv Hma Hpa Hd Hmd Hpd Hl Ha.
  assert (n ≠ "") as Hn.
  { eapply store_inv_name; [done|]. apply view_Some in Hl as (s & -> & _). eauto. }
  simpl. rewrite (route_add st radd n) by done.
  destruct (AppendTask_spec st n (Body radd) t) as (st1 & -> & Hinv1 & Hv1); [done..|].
  rewrite Hl in Hv1. simpl in Hv1. simpl.
  rewrite (route_delete st1 rdel n part) by done.
  destruct (DeleteTask_spec st1 n part (Z.of_nat (length l) + 1) (l ++ [t]))
    as (st2 & -> & _ & Hv2); [done|done|by rewrite Hv1, lookup_insert_eq| |].
  { rewrite length_app. simpl. lia. }
  simpl. exists st2. eexists. split_and!; [done|done|].
  rewrite Hv2, Hv1, insert_insert_eq.
  replace (Z.to_nat (Z.of_nat (length l) + 1 - 1)) with (length l) by lia.
  replace (Z.to_nat (Z.of_nat (length l) + 1)) with (length (l ++ [t]))
    by (rewrite length_app; simpl; lia).
  rewrite take_app_length, drop_all, (right_id_L [] (++)).
  by apply insert_id.
Qed.

Lemma insert_toggled l i t :
  l !! i = Some t → <[i := toggled t]> l = alter toggled i l.
Proof.
  intros Hi. apply list_eq. intros k. destruct (decide (k = i)) as [->|Hne].
  - rewrite list_lookup_alter_eq, Hi.
    by rewrite list_lookup_insert_eq by (by eapply lookup_lt_Some).
  - by rewrite list_lookup_alter_ne, list_lookup_insert_ne.
Qed.

Lemma ToggleTask_alter st n part index l :
  store_inv st → Atoi part = Some index → view st !! n = Some l →
  (1 ≤ index ≤ Z.of_nat (length l))%Z →
  ∃ st', ToggleTask st n part
         = Some (st', writeJSON (JMessage [ ("message", "Task status toggled") ])) ∧
         store_inv st' ∧
         view st' = <[n := alter toggled (Z.to_nat index - 1) l]> (view st).
Proof.
  intros Hinv Ha Hl Hi.
  destruct (ToggleTask_spec st n part index l) as (st' & t & Ht & Hr & Hinv' & Hv);
    [done..|].
  exists st'. split_and!; [done|done|].
  rewrite Hv. replace (Z.to_nat (index - 1)) with (Z.to_nat index - 1) in * by lia.
  f_equal. by apply (insert_toggled l _ t).
Qed.

(** X16.  Toggles commute: two toggle requests on one list, at the same or
    at different valid indices, leave the same store contents in either
    order. *)
Theorem X16_toggles_commute st r1 r2 n part1 part2 i1 i2 l :
  store_inv st →
  Method r1 = MethodPut → parts r1 = [n; "tasks"; part1] → Atoi part1 = Some i1 →
  Method r2 = MethodPut → parts r2 = [n; "tasks"; part2] → Atoi part2 = Some i2 →
  view st !! n = Some l →
  (1 ≤ i1 ≤ Z.of_nat (length l))%Z → (1 ≤ i2 ≤ Z.of_nat (length l))%Z →
  ∃ st12 st21 resps12 resps21,
    serve st [ListOperations r1; ListOperations r2] = Some (st12, resps12) ∧
    serve st [ListOperations r2; ListOperations r1] = Some (st21, resps21) ∧
    view st12 = view st21.
Proof.
  intros Hinv Hm1 Hp1 Ha1 Hm2 Hp2 Ha2 Hl Hi1 Hi2.
  assert (n ≠ "") as Hn.
  { eapply store_inv_name; [done|]. apply view_Some in Hl as (s & -> & _). eauto. }
  assert (∀ ra parta ia rb partb ib,
    Method ra = MethodPut → parts ra = [n; "tasks"; parta] → Atoi parta = Some ia →
    Method rb = MethodPut → parts rb = [n; "tasks"; partb] → Atoi partb = Some ib →
    (1 ≤ ia ≤ Z.of_nat (length l))%Z → (1 ≤ ib ≤ Z.of_nat (length l))%Z →
    ∃ st' resps,
      serve st [ListOperations ra; ListOperations rb] = Some (st', resps) ∧
      view st' = <[n := alter toggled (Z.to_nat ib - 1)
                          (alter toggled (Z.to_nat ia - 1) l)]> (view st)) as Hseq.
  { intros ra parta ia rb partb ib Hma Hpa Haa Hmb Hpb Hab Hia Hib. simpl.
    rewrite (route_toggle st ra n parta) by done.
    destruct (ToggleTask_alter st n parta ia l) as (st1 & -> & Hinv1 & Hv1); [done..|].
    simpl. rewrite (route_toggle st1 rb n partb) by done.
    destruct (ToggleTask_alter st1 n partb ib (alter toggled (Z.to_nat ia - 1) l))
      as (st2 & -> & _ & Hv2);
      [done|done|by rewrite Hv1, lookup_insert_eq|by rewrite length_alter|].
    simpl. exists st2. eexists. split; [done|].
    by rewrite Hv2, Hv1, insert_insert_eq. }
  destruct (Hseq r1 part1 i1 r2 part2 i2) as (st12 & resps12 & Hs12 & Hv12); [done..|].
  destruct (Hseq r2 part2 i2 r1 part1 i1) as (st21 & resps21 & Hs21 & Hv21); [done..|].
  exists st12, st21, resps12, resps21. split_and!; [done|done|].
  rewrite Hv12, Hv21. f_equal.
  destruct (decide (Z.to_nat i1 - 1 = Z.to_nat i2 - 1)) as [->|Hne]; [done|].
  apply list_eq. intros k.
  destruct (decide (k = Z.to_nat i1 - 1)) as [E1|H1];
    destruct (decide (k = Z.to_nat i2 - 1)) as [E2|H2]; [congruence|subst k..|].
  - rewrite list_lookup_alter_ne by done. rewrite !list_lookup_alter_eq.
    by rewrite list_lookup_alter_ne by done.
  - rewrite list_lookup_alter_eq.
    rewrite !(list_lookup_alter_ne _ _ (Z.to_nat i1 - 1)) by done.
    by rewrite list_lookup_alter_eq.
  - by rewrite !list_lookup_alter_ne by done.
Qed.

(** X17.  A task added after a delete goes to the end of the shortened
    list: the list is the old one without the deleted task, followed by
    the new task (the cell that the delete left behind in the array never
    shows), and every other list reads as before. *)
Theorem X17_delete_then_add st rdel radd n part index t l :
  store_inv st →
  Method rdel = MethodDelete → parts rdel = [n; "tasks"; part] →
  Atoi part = Some index → view st !! n = Some l →
  (1 ≤ index ≤ Z.of_nat (length l))%Z →
  Method radd = MethodPost → parts radd = [n; "tasks"] →
  Decode (Body radd) zero = Some t →
  ∃ st' resps,
    serve st [ListOperations rdel; ListOperations radd] = Some (st', resps) ∧
    code <$> resps = [StatusOK; StatusOK] ∧
    view st' = <[n := take (Z.to_nat index - 1) l ++ drop (Z.to_nat index) l ++ [t]]>
                 (view st).
Proof.
  intros Hinv Hmd Hpd Ha Hl Hi Hma Hpa Hd.
  assert (n ≠ "") as Hn.
  { eapply store_inv_name; [done|]. apply view_Some in Hl as (s & -> & _). eauto. }
  simpl. rewrite (route_delete st rdel n part) by done.
  destruct (DeleteTask_spec st n part index l) as (st1 & -> & Hinv1 & Hv1); [done..|].
  simpl. rewrite (route_add st1 radd n) by done.
  destruct (AppendTask_spec st1 n (Body radd) t) as (st2 & -> & _ & Hv2); [done..|].
  simpl. exists st2. eexists. split_and!; [done|done|].
  rewrite Hv2, Hv1, lookup_insert_eq, insert_insert_eq. simpl.
  replace (Z.to_nat (index - 1)) with (Z.to_nat index - 1) by lia.
  by rewrite <-(assoc_L (++)).
Qed.
End more_operations.
(** ** More on the console variant *)

Section more_console.
Context `{!GoRuntime} `{!Console.MapRange}.
Implicit Types (st : Console.state).

Lemma printed_refl st : Console.printed st st.
Proof. done. Qed.

Lemma printed_trans st1 st2 st3 :
  Console.printed st1 st2 → Console.printed st2 st3 → Console.printed st1 st3.
Proof. intros (? & ? & ?) (? & ? & ?). split_and!; congruence. Qed.

Lemma printed_Print s st : Console.printed st (Console.Print s st).
Proof. done. Qed.

Lemma printed_Println s st : Console.printed st (Console.Println s st).
Proof. done. Qed.

Lemma printed_foldl {X} (f : Console.state → X → Console.state) xs st :
  (∀ st x, Console.printed st (f st x)) → Console.printed st (foldl f st xs).
Proof.
  intros Hf. revert st. induction xs as [|x xs IH]; intros st; simpl; [done|].
  eapply printed_trans; [apply Hf|apply IH].
Qed.

Lemma printed_view st st' : Console.printed st st' → Console.view st' = Console.view st.
Proof. intros (Hh & Hm & _). unfold Console.view. by rewrite Hh, Hm. Qed.

Lemma printed_inv st st' :
  Console.printed st st' → Console.state_inv st → Console.state_inv st'.
Proof. intros (Hh & Hm & _). unfold Console.state_inv. by rewrite Hh, Hm. Qed.

(** The output of a run of prints. *)
Lemma stdout_foldl_Print {X} (f : X → string) xs st :
  Console.stdout (foldl (λ st x, Console.Print (f x) st) st xs)
  = Console.stdout st ++ (f <$> xs).
Proof.
  revert st. induction xs as [|x xs IH]; intros st; simpl.
  - by rewrite (right_id_L [] (++)).
  - rewrite IH. simpl. by rewrite <-(assoc_L (++)).
Qed.

(** [Scan] reads one line, if there is one, and touches nothing else. *)
Lemma Scan_spec st :
  Console.Scan st
  = (default "" (head (Console.stdin st)),
     Console.State (Console.heap st) (Console.taskLists st)
                   (tail (Console.stdin st)) (Console.stdout st)).
Proof. unfold Console.Scan. destruct st as [h m [|line rest] out]; done. Qed.

Lemma grows_refl st : Console.grows st st.
Proof. intros n l Hl. exists []. by rewrite (right_id_L [] (++)). Qed.

Lemma grows_trans st1 st2 st3 :
  Console.grows st1 st2 → Console.grows st2 st3 → Console.grows st1 st3.
Proof.
  intros H12 H23 n l Hl. destruct (H12 n l Hl) as (l1 & Hl1).
  destruct (H23 n _ Hl1) as (l2 & Hl2). exists (l1 ++ l2).
  by rewrite (assoc_L (++)).
Qed.

Lemma grows_view_eq st st' : Console.view st' = Console.view st → Console.grows st st'.
Proof. intros Hv n l Hl. exists []. by rewrite Hv, (right_id_L [] (++)). Qed.

(** *** [createTaskList] *)
Lemma Console_create_spec st :
  Console.state_inv st →
  let name := default "" (head (Console.stdin st)) in
  let st' := Console.createTaskList st in
  Console.state_inv st' ∧
  Console.stdin st' = tail (Console.stdin st) ∧
  match Console.view st !! name with
  | Some _ =>
      Console.heap st' = Console.heap st ∧
      Console.taskLists st' = Console.taskLists st ∧
      Console.stdout st'
      = Console.stdout st ++ [ "Enter name of new task list: ";
                               "Task list already exists." +:+ Console.newline ]
  | None =>
      Console.view st' = <[name := []]> (Console.view st) ∧
      Console.stdout st'
      = Console.stdout st ++ [ "Enter name of new task list: ";
                               "Task list created: " +:+ name +:+ Console.newline ]
  end.
Proof.
  intros Hok. cbv zeta.
  pose proof (empty_literal_spec (Console.heap st)) as Hlit.
  unfold Console.createTaskList. rewrite Scan_spec.
  unfold Console.view at 1. rewrite snapshot_lookup.
  unfold Console.Println, Console.Print, Console.state_inv, Console.view,
    empty_literal in *. simpl in *.
  destruct (Console.taskLists st !! default "" (head (Console.stdin st)))
    as [s|] eqn:Hs; simpl.
  - split_and!; [done..|]. by rewrite <-(assoc_L (++)).
  - destruct Hlit as (Hfr & Hoks & Hel & Hbase).
    destruct (lists_update (Console.heap st) _ (Console.taskLists st)
                (default "" (head (Console.stdin st)))
                (Slice (Some (length (Console.heap st))) 0 0 0) None Hok Hfr)
      as [Hok' Hsnap]; [|done|by right|].
    { intros n2 s2 _ Hn2 Hb. destruct Hok as [Hok _].
      destruct (Hok _ _ Hn2) as (b & ? & ? & _). congruence. }
    split_and!; [done|done|by rewrite Hsnap|].
    by rewrite <-!(assoc_L (++)).
Qed.

(** *** [addTasks] *)
Lemma Console_add_spec st :
  Console.state_inv st →
  let name := default "" (Console.stdin st !! 0) in
  let task := default "" (Console.stdin st !! 1) in
  let st' := Console.addTasks st in
  (Console.taskLists st = ∅ →
   Console.printed st st' ∧
   Console.stdout st'
   = Console.stdout st ++ [ "No task lists available. Create one first!"
                            +:+ Console.newline ]) ∧
  (Console.taskLists st ≠ ∅ → Console.view st !! name = None →
   Console.heap st' = Console.heap st ∧
   Console.taskLists st' = Console.taskLists st ∧
   Console.stdin st' = drop 1 (Console.stdin st) ∧
   last (Console.stdout st') = Some ("Task list does not exist." +:+ Console.newline)) ∧
  (∀ l, Console.view st !! name = Some l →
   Console.state_inv st' ∧
   Console.view st' = <[name := l ++ [task]]> (Console.view st) ∧
   Console.stdin st' = drop 2 (Console.stdin st) ∧
   last (Console.stdout st') = Some ("Task added to " +:+ name +:+ Console.newline)).
Proof.
  intros Hok. cbv zeta.
  assert (Console.taskLists st = ∅ ↔ size (Console.taskLists st) = 0) as Hsz
    by (by rewrite map_size_empty_iff).
  unfold Console.addTasks. case_decide as Hsize.
  { apply Hsz in Hsize. split_and!.
    - intros _. split; [apply printed_Println|done].
    - done.
    - intros l Hl. unfold Console.view in Hl. rewrite snapshot_lookup, Hsize in Hl.
      by rewrite lookup_empty in Hl. }
  set (st1 := Console.Println "Available task lists:" st).
  pose proof (printed_foldl (λ st name, Console.Println ("- " +:+ name) st)
                (fst <$> Console.range_order st1) st1
                (λ st x, printed_Println _ st)) as (Hh & Hm & Hi).
  set (st2 := foldl _ st1 _) in *. simpl in Hh, Hm, Hi.
  rewrite Scan_spec. simpl. rewrite Hi, Hm, Hh.
  assert (default "" (head (Console.stdin st)) = default "" (Console.stdin st !! 0))
    as -> by (by destruct (Console.stdin st)).
  unfold Console.view at 1 2. rewrite !snapshot_lookup.
  destruct (Console.taskLists st !! default "" (Console.stdin st !! 0))
    as [s|] eqn:Hs; simpl.
  - split_and!; [by intros ?%Hsz|done|]. intros l [= <-].
    rewrite Scan_spec. simpl.
    assert (default "" (head (tail (Console.stdin st)))
            = default "" (Console.stdin st !! 1)) as ->
      by (by destruct (Console.stdin st) as [|? [|]]).
    pose proof Hok as [Hoks _].
    pose proof (append_spec (Console.heap st) s
                  [default "" (Console.stdin st !! 1)] (Hoks _ _ Hs)) as Happ.
    destruct (append (Console.heap st) s [default "" (Console.stdin st !! 1)])
      as [h s'].
    destruct Happ as (Hfr & Hok' & Hel & _ & _ & Hbase & _).
    destruct (lists_update (Console.heap st) h (Console.taskLists st)
                (default "" (Console.stdin st !! 0)) s' (base s) Hok Hfr)
      as [Hok2 Hsnap]; [by eapply lists_ok_others|done|done|].
    simpl. split_and!; [done| | |by rewrite last_snoc].
    + unfold Console.view. simpl. by rewrite Hsnap, Hel.
    + by destruct (Console.stdin st) as [|? [|]].
  - split_and!; [by intros ?%Hsz| |done]. intros _ _.
    split_and!; [done|done| |by rewrite last_snoc].
    by destruct (Console.stdin st).
Qed.

(** *** [printTasks] *)
Lemma foldl_prints {X} (g : Console.state → X → Console.state) (f : X → string) xs st :
  (∀ st x, g st x = Console.Print (f x) st) →
  Console.printed st (foldl g st xs) ∧
  Console.stdout (foldl g st xs) = Console.stdout st ++ (f <$> xs).
Proof.
  intros Hg. revert st. induction xs as [|x xs IH]; intros st; simpl.
  - split; [done|]. by rewrite (right_id_L [] (++)).
  - destruct (IH (g st x)) as [Hp ->]. rewrite Hg in *. split.
    + eapply printed_trans; [apply printed_Print|done].
    + simpl. by rewrite <-(assoc_L (++)).
Qed.

Lemma Console_print_spec st :
  Console.state_inv st →
  Console.printed st (Console.printTasks st) ∧
  ∃ order,
    order ≡ₚ map_to_list (Console.taskLists st) ∧
    Console.stdout (Console.printTasks st)
    = Console.stdout st ++
      if decide (Console.taskLists st = ∅)
      then [ "No task lists found." +:+ Console.newline ]
      else (Console.newline +:+ "All Task Lists:" +:+ Console.newline) ::
           concat ((λ '(name, s), Console.listing name (elems (Console.heap st) s))
                     <$> order).
Proof.
  intros [Hok _]. unfold Console.printTasks.
  assert (Console.taskLists st = ∅ ↔ size (Console.taskLists st) = 0) as Hsz
    by (by rewrite map_size_empty_iff).
  case_decide as Hsize.
  { split; [done|]. exists (map_to_list (Console.taskLists st)).
    split; [done|]. by rewrite decide_True by (by apply Hsz). }
  assert (Console.taskLists st ≠ ∅) as Hne by (by intros ?%Hsz).
  set (st1 := Console.Println _ st).
  match goal with |- context [foldl ?f st1 _] => set (g := f) end.
  assert (∀ xs st0,
    Console.heap st0 = Console.heap st →
    Forall (λ x, len x.2 = length (elems (Console.heap st) x.2)) xs →
    Console.printed st0 (foldl g st0 xs) ∧
    Console.stdout (foldl g st0 xs)
    = Console.stdout st0 ++
      concat ((λ '(name, s), Console.listing name (elems (Console.heap st) s)) <$> xs))
    as Hfold.
  { induction xs as [|[name s] xs IH]; intros st0 Hh Hlen.
    - simpl. split; [done|]. by rewrite (right_id_L [] (++)).
    - apply Forall_cons in Hlen as [Hs Hlen]. simpl in Hs.
      change (foldl g st0 ((name, s) :: xs)) with (foldl g (g st0 (name, s)) xs).
      rewrite fmap_cons. cbn [concat].
      set (stx := g st0 (name, s)).
      assert (Console.printed st0 stx ∧
              Console.stdout stx
              = Console.stdout st0
                ++ Console.listing name (elems (Console.heap st) s)) as [Hpx Hox].
      { unfold stx, g, Console.listing. case_decide as Hz.
        - rewrite Hs in Hz. apply nil_length_inv in Hz. rewrite Hz.
          split; [done|]. simpl. by rewrite <-(assoc_L (++)).
        - simpl. rewrite Hh.
          destruct (foldl_prints
                      (λ st '(i, task),
                         Console.Print ("  " +:+ pretty (i + 1) +:+ ". " +:+ task
                                        +:+ Console.newline) st)
                      (λ '(i, task), "  " +:+ pretty (i + 1) +:+ ". " +:+ task
                                     +:+ Console.newline)
                      (imap pair (elems (Console.heap st) s))
                      (Console.Println ("List: " +:+ name) st0)) as [Hp ->].
          { by intros ? [??]. }
          split; [by eapply printed_trans; [apply printed_Println|]|].
          simpl. rewrite <-(assoc_L (++)). simpl. do 2 f_equal.
          rewrite fmap_imap.
          destruct (elems (Console.heap st) s) eqn:He; [|done].
          rewrite Hs in Hz. done. }
      destruct (IH stx) as [Hp Ho]; [by destruct Hpx as (-> & _)|done|].
      split; [by eapply printed_trans|].
      rewrite Ho, Hox. by rewrite <-(assoc_L (++)). }
  pose proof (Console.range_order_visits st1) as Hvisits.
  destruct (Hfold (Console.range_order st1) st1) as [Hp Ho]; [done| |].
  { apply Forall_forall. intros [name s] Hin. rewrite Hvisits in Hin.
    apply elem_of_map_to_list in Hin. simpl. symmetry. apply elems_length. eauto. }
  split; [by eapply printed_trans; [apply printed_Println|]|].
  exists (Console.range_order st1). split; [done|].
  rewrite decide_False by done. rewrite Ho. simpl. by rewrite <-(assoc_L (++)).
Qed.

(** *** The loop of [main] *)
Lemma grows_insert_new st st' n :
  Console.view st !! n = None →
  Console.view st' = <[n := []]> (Console.view st) → Console.grows st st'.
Proof.
  intros Hn Hv k l Hl. exists []. rewrite Hv, (right_id_L [] (++)).
  rewrite lookup_insert_ne; [done|]. intros ->. congruence.
Qed.

Lemma grows_insert_app st st' n l0 x :
  Console.view st !! n = Some l0 →
  Console.view st' = <[n := l0 ++ [x]]> (Console.view st) → Console.grows st st'.
Proof.
  intros Hn Hv k l Hl. rewrite Hv. destruct (decide (k = n)) as [->|Hne].
  - exists [x]. rewrite lookup_insert_eq. congruence.
  - exists []. by rewrite lookup_insert_ne, (right_id_L [] (++)).
Qed.

Lemma tail_drop {X} (l : list X) k : tail (drop k l) = drop (S k) l.
Proof.
  revert l. induction k as [|k IH]; intros [|x l]; simpl; done.
Qed.

Lemma turn_spec st st' b :
  Console.state_inv st → Console.turn st = (st', b) →
  Console.state_inv st' ∧ Console.grows st st' ∧
  (∃ k, Console.stdin st' = drop k (Console.stdin st)) ∧
  (b = true →
   head (Console.stdin st) = Some "4" ∧
   Console.heap st' = Console.heap st ∧
   Console.taskLists st' = Console.taskLists st ∧
   Console.stdin st' = tail (Console.stdin st) ∧
   last (Console.stdout st') = Some ("Exited" +:+ Console.newline)).
Proof.
  intros Hok. unfold Console.turn. rewrite Scan_spec.
  set (st2 := Console.State _ _ _ _).
  assert (Console.state_inv st2) as Hok2 by done.
  assert (Console.view st2 = Console.view st) as Hv2 by done.
  assert (Console.stdin st2 = drop 1 (Console.stdin st)) as Hi2
    by (simpl; by destruct (Console.stdin st)).
  assert (∀ st3, Console.printed st2 st3 →
            Console.state_inv st3 ∧ Console.grows st st3 ∧
            ∃ k, Console.stdin st3 = drop k (Console.stdin st)) as Hprinted.
  { intros st3 Hp. split_and!.
    - by eapply printed_inv.
    - apply grows_view_eq. by rewrite (printed_view st2 st3).
    - exists 1. destruct Hp as (_ & _ & ->). done. }
  repeat case_decide; intros [= <- <-].
  - destruct (Console_create_spec st2 Hok2) as (Hinv' & Hin' & Hcase).
    split_and!; [done| | |done].
    + rewrite Hv2 in Hcase.
      destruct (Console.view st !! default "" (head (Console.stdin st2))) eqn:Hl.
      * destruct Hcase as (Hh & Hm & _). apply grows_view_eq.
        unfold Console.view. by rewrite Hh, Hm.
      * destruct Hcase as [Hv' _]. by eapply grows_insert_new.
    + exists 2. by rewrite Hin', Hi2, tail_drop.
  - destruct (Console_add_spec st2 Hok2) as (Hempty & Habsent & Hpresent).
    rewrite Hv2 in Habsent, Hpresent.
    destruct (Console.view st !! default "" (Console.stdin st2 !! 0)) as [l|] eqn:Hl.
    + destruct (Hpresent l eq_refl) as (Hinv' & Hv' & Hin' & _).
      split_and!; [done| | |done].
      * by eapply grows_insert_app.
      * exists 3. by rewrite Hin', Hi2, drop_drop.
    + destruct (decide (Console.taskLists st2 = ∅)) as [He|He].
      * destruct (Hempty He) as [Hp _]. split_and!; [by apply Hprinted..|done].
      * destruct (Habsent He eq_refl) as (Hh & Hm & Hin' & _).
        split_and!; [| | |done].
        -- unfold Console.state_inv. by rewrite Hh, Hm.
        -- apply grows_view_eq. unfold Console.view. by rewrite Hh, Hm.
        -- exists 2. by rewrite Hin', Hi2, drop_drop.
  - destruct (Console_print_spec st2 Hok2) as [Hp _].
    split_and!; [by apply Hprinted..|done].
  - split_and!; [by apply Hprinted..|]. intros _.
    split_and!; [|done|done|done|simpl; by rewrite last_snoc].
    simpl in *. destruct (Console.stdin st) as [|line rest]; [done|]. simpl in *. congruence.
  - split_and!; [by apply Hprinted..|done].
Qed.

Lemma loop_spec fuel st st' :
  Console.state_inv st → Console.loop fuel st = Some st' →
  Console.state_inv st' ∧ Console.grows st st' ∧
  (∃ k, Console.stdin st' = drop k (Console.stdin st)) ∧
  last (Console.stdout st') = Some ("Exited" +:+ Console.newline).
Proof.
  revert st. induction fuel as [|fuel IH]; intros st Hok Hl; simpl in Hl; [done|].
  destruct (Console.turn st) as [st1 b] eqn:Ht.
  destruct (turn_spec st st1 b Hok Ht) as (Hok1 & Hg1 & [k1 Hk1] & Hexit).
  destruct b; simplify_eq.
  - destruct (Hexit eq_refl) as (_ & _ & _ & _ & Hlast). eauto.
  - destruct (IH st1 Hok1 Hl) as (Hok' & Hg' & [k Hk] & Hlast).
    split_and!; [done|by eapply grows_trans| |done].
    exists (k1 + k). by rewrite Hk, Hk1, drop_drop.
Qed.

Lemma loop_without_exit fuel st :
  Console.state_inv st → "4" ∉ Console.stdin st → Console.loop fuel st = None.
Proof.
  revert st. induction fuel as [|fuel IH]; intros st Hok H4; simpl; [done|].
  destruct (Console.turn st) as [st1 b] eqn:Ht.
  destruct (turn_spec st st1 b Hok Ht) as (Hok1 & _ & [k1 Hk1] & Hexit).
  destruct b.
  - destruct (Hexit eq_refl) as (Hhead & _). destruct H4.
    destruct (Console.stdin st) as [|line rest]; simplify_eq/=. by left.
  - apply IH; [done|]. rewrite Hk1. intros Hin. apply H4.
    apply list_elem_of_lookup_1 in Hin as [i Hi]. rewrite lookup_drop in Hi.
    by eapply list_elem_of_lookup_2.
Qed.

(** X18.  [createTaskList] reads one line as the name (the empty name when
    the input is exhausted, which it takes like any other).  A name that
    exists is refused: the lists stay as they are.  A new name gets the
    empty list and every other list stays as it was. *)
Theorem X18_console_create st :
  Console.state_inv st →
  let name := default "" (head (Console.stdin st)) in
  let st' := Console.createTaskList st in
  Console.state_inv st' ∧
  Console.stdin st' = tail (Console.stdin st) ∧
  match Console.view st !! name with
  | Some _ =>
      Console.heap st' = Console.heap st ∧
      Console.taskLists st' = Console.taskLists st ∧
      Console.stdout st'
      = Console.stdout st ++ [ "Enter name of new task list: ";
                               "Task list already exists." +:+ Console.newline ]
  | None =>
      Console.view st' = <[name := []]> (Console.view st) ∧
      Console.stdout st'
      = Console.stdout st ++ [ "Enter name of new task list: ";
                               "Task list created: " +:+ name +:+ Console.newline ]
  end.
Proof. apply Console_create_spec. Qed.

(** X19.  [addTasks] with no list at all reads nothing and changes
    nothing.  Otherwise it reads a name: if no list has it, the lists stay
    as they are and only that one line is read (no task is asked for); if
    a list has it, a second line is read and put at the end of that list,
    and every other list stays as it was. *)
Theorem X19_console_add st :
  Console.state_inv st →
  let name := default "" (Console.stdin st !! 0) in
  let task := default "" (Console.stdin st !! 1) in
  let st' := Console.addTasks st in
  (Console.taskLists st = ∅ →
   Console.printed st st' ∧
   Console.stdout st'
   = Console.stdout st ++ [ "No task lists available. Create one first!"
                            +:+ Console.newline ]) ∧
  (Console.taskLists st ≠ ∅ → Console.view st !! name = None →
   Console.heap st' = Console.heap st ∧
   Console.taskLists st' = Console.taskLists st ∧
   Console.stdin st' = drop 1 (Console.stdin st) ∧
   last (Console.stdout st') = Some ("Task list does not exist." +:+ Console.newline)) ∧
  (∀ l, Console.view st !! name = Some l →
   Console.state_inv st' ∧
   Console.view st' = <[name := l ++ [task]]> (Console.view st) ∧
   Console.stdin st' = drop 2 (Console.stdin st) ∧
   last (Console.stdout st') = Some ("Task added to " +:+ name +:+ Console.newline)).
Proof. apply Console_add_spec. Qed.

(** X20.  [printTasks] changes nothing but the output.  With no list it
    prints "No task lists found."; otherwise, after a heading, it prints
    for each list its name and then its tasks in order, numbered from 1,
    or "(No tasks)" for an empty list.  Every list is printed once; the
    order of the lists is the one the [range] over the map takes, which Go
    leaves open: the output is that of some order of the lists. *)
Theorem X20_console_print st :
  Console.state_inv st →
  Console.printed st (Console.printTasks st) ∧
  ∃ order,
    order ≡ₚ map_to_list (Console.taskLists st) ∧
    Console.stdout (Console.printTasks st)
    = Console.stdout st ++
      if decide (Console.taskLists st = ∅)
      then [ "No task lists found." +:+ Console.newline ]
      else (Console.newline +:+ "All Task Lists:" +:+ Console.newline) ::
           concat ((λ '(name, s), Console.listing name (elems (Console.heap st) s))
                     <$> order).
Proof. apply Console_print_spec. Qed.

(** X21.  [main] returns only through the choice "4": on an input without
    a line "4" it never returns, however many turns its loop is given (at
    the end of the input it goes on printing the menu). *)
Theorem X21_main_needs_exit fuel input :
  "4" ∉ input → Console.main fuel input = None.
Proof.
  intros H4. unfold Console.main. apply loop_without_exit; [|done].
  apply lists_ok_empty.
Qed.

(** X22.  When the loop of [main] returns, it has read a prefix of the
    input, the last thing it printed is "Exited", and no task was lost or
    changed on the way: every list that was there is still there, with its
    old tasks in order and any new ones after them. *)
Theorem X22_main_only_grows fuel st st' :
  Console.state_inv st → Console.loop fuel st = Some st' →
  Console.state_inv st' ∧ Console.grows st st' ∧
  (∃ k, Console.stdin st' = drop k (Console.stdin st)) ∧
  last (Console.stdout st') = Some ("Exited" +:+ Console.newline).
Proof. apply loop_spec. Qed.
End more_console.
(** ** More on concurrent add-task requests *)

Section more_concurrent_facts.
Context `{!GoRuntime}.
Implicit Types (st : store) (cfg : config) (p q : pc) (gs : list pc).

(** A step leaves the lists other than [n] as they read. *)
Lemma schedule_others n l0 ts cfg i cfg' :
  conc_inv n l0 ts cfg → schedule cfg i = Some cfg' →
  ∀ n', n' ≠ n → view (shared cfg') !! n' = view (shared cfg) !! n'.
Proof.
  intros (Hinv & Hsv & Hfl & _) Hstep n' Hne. destruct cfg as [st locked gs].
  unfold schedule in Hstep. simpl in *.
  destruct (gs !! i) as [p|] eqn:Hi; [|done]. simpl in Hstep.
  pose proof (Forall_lookup_1 _ _ _ _ Hsv Hi) as Hp.
  pose proof (Forall_lookup_1 _ _ _ _ Hfl Hi) as Hf.
  destruct p as [m b|m t|m t|m t s|m t|resp|resp]; simpl in Hstep, Hp, Hf; subst.
  - destruct (Decode b zero); by simplify_eq/=.
  - destruct locked; by simplify_eq/=.
  - pose proof (append_unseen st n t Hinv) as Hun.
    destruct (append (heap st) (default nil_slice (taskLists st !! n)) [t])
      as [h s]. simplify_eq/=. destruct Hun as (_ & -> & _). done.
  - simplify_eq/=. destruct Hf as (Hoks & Hel & Hown).
    destruct Hinv as [Hok He]. pose proof Hok as [Hoks0 _].
    destruct (lists_assign (heap st) (heap st) (taskLists st) n s None Hok)
      as [_ Hsnap]; [apply frames_refl| |done|].
    { intros n2 s2 Hne2 Hn2. split; [|by eapply Hown].
      destruct (Hoks0 _ _ Hn2) as (a & ? & ? & _). congruence. }
    unfold view. simpl. by rewrite Hsnap, lookup_insert_ne.
  - by simplify_eq/=.
  - destruct locked; by simplify_eq/=.
  - done.
Qed.

Lemma run_others n l0 ts cfg sched cfg' :
  n ≠ "" → conc_inv n l0 ts cfg → run cfg sched = Some cfg' →
  ∀ n', n' ≠ n → view (shared cfg') !! n' = view (shared cfg) !! n'.
Proof.
  intros Hn. revert cfg. induction sched as [|i sched IH]; intros cfg Hinv Hrun n' Hne;
    simpl in Hrun; [by simplify_eq|].
  destruct (schedule cfg i) as [cfg1|] eqn:Hs; [|done]. simpl in Hrun.
  rewrite (IH cfg1) by (done || by eapply conc_inv_schedule).
  by eapply schedule_others.
Qed.

Lemma finished_free gs : Forall (λ p, is_done p = true) gs → ¬ occupied gs.
Proof.
  intros Hfin (i & p & Hi & Hp).
  pose proof (Forall_lookup_1 _ _ _ _ Hfin Hi) as Hd. by destruct p.
Qed.

(** X23.  Add-task requests for one list served concurrently, some of them
    with bodies that cannot be decoded: when all goroutines have returned
    the mutex is free, the store is well formed, the list is what it was
    followed by the tasks of the decodable bodies in some order, each
    once, and every other list reads as before. *)
Theorem X23_concurrent_adds_any_bodies st n bodies sched cfg :
  store_inv st → n ≠ "" →
  run (arrivals st n bodies) sched = Some cfg → finished cfg →
  mu cfg = false ∧ store_inv (shared cfg) ∧
  (∃ added,
     default [] (view (shared cfg) !! n) = default [] (view st !! n) ++ added ∧
     added ≡ₚ omap (λ b, Decode b zero) bodies) ∧
  (∀ n', n' ≠ n → view (shared cfg) !! n' = view st !! n').
Proof.
  intros Hinv Hn Hrun Hfin.
  pose proof (conc_inv_arrivals st n bodies Hinv) as Hinv0.
  pose proof (conc_inv_run n _ _ _ sched cfg Hn Hinv0 Hrun) as Hinv1.
  pose proof Hinv1 as (Hst & _ & _ & _ & Hmu & added & Hl & Hperm).
  rewrite (finished_pending _ Hfin), (right_id_L [] (++)) in Hperm.
  split_and!; [|done|by exists added|].
  - destruct (mu cfg) eqn:Hlocked; [|done].
    destruct (finished_free _ Hfin). by apply Hmu.
  - intros n' Hne. by rewrite (run_others n _ _ _ sched cfg Hn Hinv0 Hrun).
Qed.





(** *** Concurrent requests against requests served one by one *)

(** A step leaves the store as it reads or puts one task at the end of
    list [n]. *)
Lemma schedule_view n l0 ts cfg i cfg' :
  conc_inv n l0 ts cfg → schedule cfg i = Some cfg' →
  view (shared cfg') = view (shared cfg) ∨
  ∃ t, view (shared cfg')
       = <[n := default [] (view (shared cfg) !! n) ++ [t]]> (view (shared cfg)).
Proof.
  intros (Hinv & Hsv & Hfl & _) Hstep. destruct cfg as [st locked gs].
  unfold schedule in Hstep. simpl in *.
  destruct (gs !! i) as [p|] eqn:Hi; [|done]. simpl in Hstep.
  pose proof (Forall_lookup_1 _ _ _ _ Hsv Hi) as Hp.
  pose proof (Forall_lookup_1 _ _ _ _ Hfl Hi) as Hf.
  destruct p as [m b|m t|m t|m t s|m t|resp|resp]; simpl in Hstep, Hp, Hf; subst.
  - destruct (Decode b zero); simplify_eq/=; by left.
  - destruct locked; simplify_eq/=; by left.
  - pose proof (append_unseen st n t Hinv) as Hun.
    destruct (append (heap st) (default nil_slice (taskLists st !! n)) [t])
      as [h s]. simplify_eq/=. destruct Hun as (_ & -> & _). by left.
  - simplify_eq/=. destruct Hf as (Hoks & Hel & Hown).
    destruct Hinv as [Hok He]. pose proof Hok as [Hoks0 _].
    destruct (lists_assign (heap st) (heap st) (taskLists st) n s None Hok)
      as [_ Hsnap]; [apply frames_refl| |done|].
    { intros n2 s2 Hne2 Hn2. split; [|by eapply Hown].
      destruct (Hoks0 _ _ Hn2) as (a & ? & ? & _). congruence. }
    right. exists t. unfold view at 1. simpl. by rewrite Hsnap, Hel.
  - simplify_eq/=. by left.
  - destruct locked; simplify_eq/=; by left.
  - done.
Qed.

Lemma run_view n l0 ts cfg0 sched cfg :
  n ≠ "" → conc_inv n l0 ts cfg0 → run cfg0 sched = Some cfg →
  view (shared cfg) = view (shared cfg0) ∨
  ∃ x xs, view (shared cfg)
          = <[n := default [] (view (shared cfg0) !! n) ++ x :: xs]> (view (shared cfg0)).
Proof.
  intros Hn Hinv0 Hrun.
  assert (∀ sched cfg1,
    conc_inv n l0 ts cfg1 →
    (view (shared cfg1) = view (shared cfg0) ∨
     ∃ x xs, view (shared cfg1)
             = <[n := default [] (view (shared cfg0) !! n) ++ x :: xs]>
                 (view (shared cfg0))) →
    run cfg1 sched = Some cfg →
    view (shared cfg) = view (shared cfg0) ∨
    ∃ x xs, view (shared cfg)
            = <[n := default [] (view (shared cfg0) !! n) ++ x :: xs]>
                (view (shared cfg0))) as Hgen.
  { clear sched Hrun. induction sched as [|i sched IH]; intros cfg1 Hinv1 Hv Hrun;
      simpl in Hrun; [by simplify_eq|].
    destruct (schedule cfg1 i) as [cfg2|] eqn:Hs; [|done]. simpl in Hrun.
    eapply IH; [by eapply conc_inv_schedule| |done].
    destruct (schedule_view n l0 ts cfg1 i cfg2 Hinv1 Hs) as [->|[t ->]]; [done|].
    right. destruct Hv as [->|(x & xs & ->)].
    - by exists t, [].
    - exists x, (xs ++ [t]). rewrite lookup_insert_eq, insert_insert_eq. simpl.
      by rewrite <-(assoc_L (++)). }
  eapply Hgen; [done|by left|done].
Qed.

(** The requests served one after the other. *)
Lemma append_all_spec st n bodies :
  store_inv st → n ≠ "" →
  ∃ st', append_all st n bodies = Some st' ∧ store_inv st' ∧
         view st' = match omap (λ b, Decode b zero) bodies with
                    | [] => view st
                    | ts => <[n := default [] (view st !! n) ++ ts]> (view st)
                    end.
Proof.
  intros Hinv Hn. revert st Hinv. induction bodies as [|b bodies IH]; intros st Hinv.
  - by exists st.
  - csimpl. destruct (Decode b zero) as [t|] eqn:Hd.
    + destruct (AppendTask_spec st n b t) as (st1 & -> & Hinv1 & Hv1); [done..|].
      simpl. destruct (IH st1 Hinv1) as (st' & -> & Hinv' & Hv').
      exists st'. split_and!; [done..|]. rewrite Hv'.
      destruct (omap _ bodies) as [|t' ts]; [done|].
      rewrite Hv1, lookup_insert_eq, insert_insert_eq. simpl.
      by rewrite <-(assoc_L (++)).
    + rewrite AppendTask_malformed by done. simpl. by apply IH.
Qed.

(** An order of the results of [omap] comes from an order of the
    arguments. *)
Lemma omap_cons_inv {X Y} (f : X → option Y) xs y ys :
  omap f xs = y :: ys →
  ∃ pre x post, xs = pre ++ x :: post ∧ omap f pre = [] ∧ f x = Some y ∧
                omap f post = ys.
Proof.
  induction xs as [|x xs IH]; csimpl; [done|].
  destruct (f x) as [y'|] eqn:Hx.
  - intros [= -> <-]. by exists [], x, xs.
  - intros (pre & x' & post & -> & Hpre & Hx' & Hpost)%IH.
    exists (x :: pre), x', post. csimpl. by rewrite Hx.
Qed.

Lemma omap_Permutation_inv {X Y} (f : X → option Y) ys xs :
  ys ≡ₚ omap f xs → ∃ xs', xs' ≡ₚ xs ∧ omap f xs' = ys.
Proof.
  remember (omap f xs) as zs eqn:Hzs. intros Hperm. revert xs Hzs.
  induction Hperm as [|y ys zs Hperm IH|y1 y2 ys|ys zs ws _ IH1 _ IH2]; intros xs Hxs.
  - by exists xs.
  - symmetry in Hxs.
    apply omap_cons_inv in Hxs as (pre & x & post & -> & Hpre & Hx & Hpost).
    destruct (IH post) as (post' & Hp & Ho); [done|].
    exists (pre ++ x :: post'). split; [by rewrite Hp|].
    rewrite omap_app, Hpre. csimpl. by rewrite Hx, Ho.
  - symmetry in Hxs.
    apply omap_cons_inv in Hxs as (pre & x1 & post & -> & Hpre & Hx1 & Hpost).
    apply omap_cons_inv in Hpost as (mid & x2 & post' & -> & Hmid & Hx2 & Hpost').
    exists (pre ++ x2 :: mid ++ x1 :: post'). split.
    + apply Permutation_app_head.
      rewrite !(Permutation_middle mid). by rewrite perm_swap.
    + rewrite omap_app, Hpre. csimpl. rewrite Hx2, omap_app, Hmid. csimpl.
      by rewrite Hx1, Hpost'.
  - destruct (IH2 xs Hxs) as (xs2 & Hp2 & Ho2).
    destruct (IH1 xs2) as (xs1 & Hp1 & Ho1); [done|].
    exists xs1. split; [by rewrite Hp1|done].
Qed.

(** X25.  Concurrent add-task requests for one list leave the store as if
    they had been served one after the other in some order: for every
    finished run there is an order of the same requests whose service one
    by one gives a store that reads the same, list for list. *)
Theorem X25_concurrent_adds_as_if_in_order st n bodies sched cfg :
  store_inv st → n ≠ "" →
  run (arrivals st n bodies) sched = Some cfg → finished cfg →
  ∃ order st',
    order ≡ₚ bodies ∧ append_all st n order = Some st' ∧
    view (shared cfg) = view st'.
Proof.
  intros Hinv Hn Hrun Hfin.
  pose proof (conc_inv_arrivals st n bodies Hinv) as Hinv0.
  pose proof (conc_inv_run n _ _ _ sched cfg Hn Hinv0 Hrun) as Hinv1.
  pose proof Hinv1 as (_ & _ & _ & _ & _ & added & Hl & Hperm).
  rewrite (finished_pending _ Hfin), (right_id_L [] (++)) in Hperm.
  destruct (omap_Permutation_inv (λ b, Decode b zero) added bodies Hperm)
    as (order & Hord & Ho).
  destruct (append_all_spec st n order Hinv Hn) as (st' & Hs & _ & Hv').
  exists order, st'. split_and!; [done..|]. rewrite Hv', Ho.
  destruct (run_view n _ _ _ sched cfg Hn Hinv0 Hrun) as [Hv|(x & xs & Hv)];
    simpl in Hv; rewrite Hv in Hl |- *.
  - apply (f_equal length) in Hl. rewrite length_app in Hl.
    destruct added; [done|simpl in Hl; lia].
  - rewrite lookup_insert_eq in Hl. simpl in Hl. apply app_inv_head in Hl as <-.
    done.
Qed.
End more_concurrent_facts.

(** ** The further properties at work

    The properties above that have hypotheses, applied to the stores of
    the lists "work" and "home", to a session at the console and to three
    goroutines. *)

Lemma fresh_work_inv : Console.state_inv fresh_work.
Proof.
  pose proof (Console_create_spec (Console.start [ "work"; "work"; "buy milk" ])
                (lists_ok_empty _)) as H.
  apply H.
Qed.

Lemma after_session_inv : Console.state_inv after_session.
Proof.
  apply (@loop_spec doubling backwards 6 (welcomed session) after_session).
  - apply lists_ok_empty.
  - vm_compute. reflexivity.
Qed.

(** A PATCH request for the tasks of "work". *)
Lemma X1_reads_leave_the_store_witness :
  ∃ resp, @handleListOperations doubling (after work_calls)
            (request_to "PATCH" "/lists/work/tasks")
          = Some (after work_calls, resp).
Proof.
  apply (@X1_reads_leave_the_store doubling (after work_calls)
           (request_to "PATCH" "/lists/work/tasks")); discriminate.
Defined.



(** The path "/lists//tasks" has an empty list name. *)
Lemma X4_empty_list_name_witness :
  @handleListOperations doubling (after work_calls)
    (request_to MethodGet "/lists//tasks")
  = Some (after work_calls, http_Error "List name required" StatusBadRequest).
Proof.
  apply (@X4_empty_list_name doubling (after work_calls)
           (request_to MethodGet "/lists//tasks")).
  reflexivity.
Defined.

(** "/lists/work/items" is no route. *)
Lemma X5_no_other_route_witness :
  @handleListOperations doubling (after work_calls)
    (request_to MethodGet "/lists/work/items")
  = Some (after work_calls, http_Error "Not found" StatusNotFound).
Proof.
  apply (@X5_no_other_route doubling (after work_calls)
           (request_to MethodGet "/lists/work/items") "work" ["items"]).
  - reflexivity.
  - discriminate.
  - right. left. exists "items". split; [reflexivity|discriminate].
Defined.

(** A task is posted to "work" with a body that does not decode. *)
Lemma X6_malformed_body_witness :
  @handleListOperations doubling (after work_calls) (request_to MethodPost "/lists/work/tasks")
  = Some (after work_calls, http_Error "Invalid task data" StatusBadRequest).
Proof.
  apply (@X6_malformed_body doubling (after work_calls)
           (request_to MethodPost "/lists/work/tasks") "work").
  - discriminate.
  - reflexivity.
  - reflexivity.
  - reflexivity.
Defined.

(** There is no list "play": index 0 is refused as an index, index 1 is
    answered with the missing list. *)
Lemma X7_index_before_existence_witness :
  @handleListOperations doubling (after work_calls)
    (request_to MethodPut "/lists/play/tasks/0")
  = Some (after work_calls, http_Error "Invalid task index" StatusBadRequest) ∧
  @handleListOperations doubling (after work_calls)
    (request_to MethodDelete "/lists/play/tasks/1")
  = Some (after work_calls, http_Error "Task list not found" StatusNotFound).
Proof.
  split.
  - apply (proj1 (@X7_index_before_existence doubling (after work_calls)
                    (request_to MethodPut "/lists/play/tasks/0") "play" "0"
                    ltac:(discriminate) (or_introl eq_refl) eq_refl)).
    intros index Hindex. vm_compute in Hindex. injection Hindex as <-. lia.
  - apply (proj2 (@X7_index_before_existence doubling (after work_calls)
                    (request_to MethodDelete "/lists/play/tasks/1") "play" "1"
                    ltac:(discriminate) (or_intror eq_refl) eq_refl) 1%Z).
    + vm_compute. reflexivity.
    + lia.
    + vm_compute. reflexivity.
Defined.

(** "work" is created a second time: the answer is 409 and the store is
    the same. *)
Lemma X8_errors_change_nothing_witness :
  code (http_Error "Task list already exists" StatusConflict) ∈ status_codes ∧
  (code (http_Error "Task list already exists" StatusConflict) ≠ StatusOK →
   after work_calls = after work_calls).
Proof.
  apply (@X8_errors_change_nothing doubling (after work_calls)
           (post "/lists/work" Malformed)).
  vm_compute. reflexivity.
Defined.

(** The names after the calls that make "home" and "work". *)
Lemma X10_list_names_witness : names_ok (after home_calls).
Proof.
  apply (@X10_list_names doubling home_calls (after home_calls)
           (from_option snd [] (@serve doubling empty_store home_calls))).
  vm_compute. reflexivity.
Defined.

(** The first task of "work" is deleted: "home" reads as before. *)
Lemma X11_delete_frame_witness :
  ∃ st', @handleListOperations doubling (after home_calls)
           (request_to MethodDelete "/lists/work/tasks/1")
         = Some (st', writeJSON (JMessage [ ("message", "Task deleted") ])) ∧
         view st' !! "home" = Some [mkTask "water plants" false].
Proof.
  destruct (@X11_delete_frame doubling (after home_calls)
              (request_to MethodDelete "/lists/work/tasks/1")
              "work" "1" 1 [buy_milk; call_bob])
    as (st' & Hr & _ & Hoth & _).
  - apply after_inv.
  - reflexivity.
  - reflexivity.
  - vm_compute. reflexivity.
  - vm_compute. reflexivity.
  - simpl. lia.
  - exists st'. split; [exact Hr|]. rewrite (Hoth "home") by discriminate.
    vm_compute. reflexivity.
Defined.



(** The first task of "work" is deleted twice: "work" is empty, and still
    there. *)
Lemma X14_delete_all_witness :
  ∃ st' resps,
    @serve doubling (after work_calls)
      (replicate 2 (ListOperations (request_to MethodDelete "/lists/work/tasks/1")))
    = Some (st', resps) ∧
    resps = replicate 2 (writeJSON (JMessage [ ("message", "Task deleted") ])) ∧
    store_inv st' ∧
    view st' = <["work" := []]> (view (after work_calls)).
Proof.
  apply (@X14_delete_all doubling (after work_calls)
           (request_to MethodDelete "/lists/work/tasks/1")
           "work" "1" [buy_milk; call_bob]).
  - apply after_inv.
  - reflexivity.
  - reflexivity.
  - vm_compute. reflexivity.
  - vm_compute. reflexivity.
Defined.

(** A third task is added to "work" and task 3 is deleted. *)
Lemma X15_add_then_delete_last_witness :
  ∃ st' resps,
    @serve doubling (after work_calls)
      [ post "/lists/work/tasks" (TaskJSON (Some "pay rent") None);
        ListOperations (request_to MethodDelete "/lists/work/tasks/3") ]
    = Some (st', resps) ∧
    code <$> resps = [StatusOK; StatusOK] ∧
    view st' = view (after work_calls).
Proof.
  apply (@X15_add_then_delete_last doubling (after work_calls)
           (Request MethodPost "/lists/work/tasks" (TaskJSON (Some "pay rent") None))
           (request_to MethodDelete "/lists/work/tasks/3")
           "work" "3" (mkTask "pay rent" false) [buy_milk; call_bob]).
  - apply after_inv.
  - reflexivity.
  - reflexivity.
  - reflexivity.
  - reflexivity.
  - reflexivity.
  - vm_compute. reflexivity.
  - vm_compute. reflexivity.
Defined.

(** The two tasks of "work" are toggled, in either order. *)
Lemma X16_toggles_commute_witness :
  ∃ st12 st21 resps12 resps21,
    @serve doubling (after work_calls)
      [ ListOperations (request_to MethodPut "/lists/work/tasks/1");
        ListOperations (request_to MethodPut "/lists/work/tasks/2") ]
    = Some (st12, resps12) ∧
    @serve doubling (after work_calls)
      [ ListOperations (request_to MethodPut "/lists/work/tasks/2");
        ListOperations (request_to MethodPut "/lists/work/tasks/1") ]
    = Some (st21, resps21) ∧
    view st12 = view st21.
Proof.
  apply (@X16_toggles_commute doubling (after work_calls)
           (request_to MethodPut "/lists/work/tasks/1")
           (request_to MethodPut "/lists/work/tasks/2")
           "work" "1" "2" 1 2 [buy_milk; call_bob]).
  - apply after_inv.
  - reflexivity.
  - reflexivity.
  - vm_compute. reflexivity.
  - reflexivity.
  - reflexivity.
  - vm_compute. reflexivity.
  - vm_compute. reflexivity.
  - simpl. lia.
  - simpl. lia.
Defined.

(** The first task of "work" is deleted and a new one is added. *)
Lemma X17_delete_then_add_witness :
  ∃ st' resps,
    @serve doubling (after work_calls)
      [ ListOperations (request_to MethodDelete "/lists/work/tasks/1");
        post "/lists/work/tasks" (TaskJSON (Some "pay rent") None) ]
    = Some (st', resps) ∧
    code <$> resps = [StatusOK; StatusOK] ∧
    view st' = <["work" := [call_bob; mkTask "pay rent" false]]> (view (after work_calls)).
Proof.
  apply (@X17_delete_then_add doubling (after work_calls)
           (request_to MethodDelete "/lists/work/tasks/1")
           (Request MethodPost "/lists/work/tasks" (TaskJSON (Some "pay rent") None))
           "work" "1" 1 (mkTask "pay rent" false) [buy_milk; call_bob]).
  - apply after_inv.
  - reflexivity.
  - reflexivity.
  - vm_compute. reflexivity.
  - vm_compute. reflexivity.
  - simpl. lia.
  - reflexivity.
  - reflexivity.
  - reflexivity.
Defined.

(** "work" is created at the console. *)
Lemma X18_console_create_witness :
  Console.view fresh_work
  = <["work" := []]> (Console.view (Console.start [ "work"; "work"; "buy milk" ])).
Proof.
  destruct (X18_console_create (Console.start [ "work"; "work"; "buy milk" ])
              (lists_ok_empty _)) as (_ & _ & H).
  exact (proj1 H).
Defined.

(** A task is added to the new list "work". *)
Lemma X19_console_add_witness :
  Console.view (@Console.addTasks doubling backwards fresh_work)
  = <["work" := [] ++ ["buy milk"]]> (Console.view fresh_work).
Proof.
  destruct (@X19_console_add doubling backwards fresh_work fresh_work_inv)
    as (_ & _ & H).
  apply (H []). vm_compute. reflexivity.
Defined.

(** The lists "home" and "work" of the session are shown, by a loop that
    goes through the map backwards. *)
Lemma X20_console_print_witness :
  Console.printed after_session (@Console.printTasks backwards after_session) ∧
  ∃ order,
    order ≡ₚ map_to_list (Console.taskLists after_session) ∧
    Console.stdout (@Console.printTasks backwards after_session)
    = Console.stdout after_session ++
      if decide (Console.taskLists after_session = ∅)
      then [ "No task lists found." +:+ Console.newline ]
      else (Console.newline +:+ "All Task Lists:" +:+ Console.newline) ::
           concat ((λ '(name, s),
                      Console.listing name (elems (Console.heap after_session) s))
                     <$> order).
Proof.
  apply (@X20_console_print backwards after_session after_session_inv).
Defined.

(** A session that ends without choice 4. *)
Lemma X21_main_needs_exit_witness :
  @Console.main doubling backwards 100 [ "1"; "work"; "3" ] = None.
Proof.
  apply (@X21_main_needs_exit doubling backwards 100 [ "1"; "work"; "3" ]).
  apply (bool_decide_unpack _). vm_compute. exact I.
Defined.

(** The session: what it leaves behind. *)
Lemma X22_main_only_grows_witness :
  Console.state_inv after_session ∧
  Console.grows (welcomed session) after_session ∧
  (∃ k, Console.stdin after_session = drop k (Console.stdin (welcomed session))) ∧
  last (Console.stdout after_session) = Some ("Exited" +:+ Console.newline).
Proof.
  apply (@X22_main_only_grows doubling backwards 6 (welcomed session) after_session).
  - apply lists_ok_empty.
  - vm_compute. reflexivity.
Defined.

(** Three goroutines, one with a body that does not decode: two tasks
    more in "work". *)
Lemma X23_concurrent_adds_any_bodies_witness :
  mu after_mixed = false ∧ store_inv (shared after_mixed) ∧
  (∃ added,
     default [] (view (shared after_mixed) !! "work")
     = default [] (view (after work_calls) !! "work") ++ added ∧
     added ≡ₚ omap (λ b, Decode b zero) mixed_bodies) ∧
  (∀ n', n' ≠ "work" →
         view (shared after_mixed) !! n' = view (after work_calls) !! n').
Proof.
  apply (@X23_concurrent_adds_any_bodies doubling (after work_calls) "work"
           mixed_bodies mixed_interleaving after_mixed).
  - apply after_inv.
  - discriminate.
  - vm_compute. reflexivity.
  - unfold finished. vm_compute. repeat constructor.
Defined.


(** The three goroutines: an order that gives the same store. *)
Lemma X25_concurrent_adds_as_if_in_order_witness :
  ∃ order st',
    order ≡ₚ mixed_bodies ∧
    @append_all doubling (after work_calls) "work" order = Some st' ∧
    view (shared after_mixed) = view st'.
Proof.
  apply (@X25_concurrent_adds_as_if_in_order doubling (after work_calls) "work"
           mixed_bodies mixed_interleaving after_mixed).
  - apply after_inv.
  - discriminate.
  - vm_compute. reflexivity.
  - unfold finished. vm_compute. repeat constructor.
Defined.
